(** * JSRETK: react_native_fix_hermes_decomp.py

    A shallow embedding of the script that repairs hbc-decompiler output,
    together with the fragment of Python's [re] module that the script
    relies on (anchored backtracking match, greedy repetition of a
    character set, capture groups, [re.sub] with a group template). *)

From Stdlib Require Import Ascii String ZArith Lia Bool Arith List.
Import ListNotations.

(* ------------------------------------------------------------------ *)
(** ** Text *)

(** A Python [str] is a sequence of characters.  The two patterns of the
    script only ever test characters against ASCII characters, so a
    character is modelled as an [ascii]. *)
Definition text := list ascii.

(** Rocq string literals have no escape sequences: a backslash written in
    a literal is one backslash character. *)
Definition T (s : string) : text := list_ascii_of_string s.

Definition NL : ascii := ascii_of_nat 10.
Definition BS : ascii := ascii_of_nat 92.
Definition SLASH : ascii := ascii_of_nat 47.

(* ------------------------------------------------------------------ *)
(** ** The fragment of [re] used by the script *)

Module Re.

(** A bracketed character set: inclusive ranges, possibly negated. *)
Record charset := CharSet { negated : bool; ranges : list (ascii * ascii) }.

Definition in_range (c : ascii) (r : ascii * ascii) : bool :=
  (nat_of_ascii (fst r) <=? nat_of_ascii c) &&
  (nat_of_ascii c <=? nat_of_ascii (snd r)).

Definition in_set (cs : charset) (c : ascii) : bool :=
  xorb (negated cs) (existsb (in_range c) (ranges cs)).

Inductive regex : Type :=
| Str (l : text)                     (* a run of literal characters *)
| Rep (min : nat) (cs : charset)     (* greedy [cs]{min,} *)
| Cat (r1 r2 : regex)                (* r1 r2 *)
| Group (n : nat) (r : regex).       (* capture group number n *)

(** Captured groups, most recent binding first. *)
Definition captures := list (nat * text).

Inductive titem : Type :=
| TLit (l : text)                    (* literal text of the template *)
| TGroup (n : nat).                  (* backreference \n *)

Definition template := list titem.

Fixpoint strip_prefix (p s : text) : option text :=
  match p, s with
  | [], _ => Some s
  | a :: p', b :: s' => if Ascii.eqb a b then strip_prefix p' s' else None
  | _ :: _, [] => None
  end.

(** Greedy repetition: take one more character whenever the set allows
    it and the rest of the pattern then succeeds; otherwise stop here,
    provided the minimum has been reached. *)
Fixpoint max_repeat {A : Type} (cs : charset) (min : nat) (s : text)
         (k : text -> option A) : option A :=
  let stop := match min with O => k s | S _ => None end in
  match s with
  | c :: t =>
      if in_set cs c then
        match max_repeat cs (pred min) t k with
        | Some r => Some r
        | None => stop
        end
      else stop
  | [] => stop
  end.

(** The part of [s] in front of its suffix [s']. *)
Definition consumed (s s' : text) : text :=
  firstn (length s - length s') s.

(** Backtracking match of [r] at the head of [s]; [k] is the rest of the
    pattern.  The first successful path wins, as in [re]. *)
Fixpoint run (r : regex) (s : text) (caps : captures)
         (k : text -> captures -> option (captures * text))
  : option (captures * text) :=
  match r with
  | Str l =>
      match strip_prefix l s with
      | Some s' => k s' caps
      | None => None
      end
  | Rep min cs => max_repeat cs min s (fun s' => k s' caps)
  | Cat r1 r2 => run r1 s caps (fun s' caps' => run r2 s' caps' k)
  | Group n r1 =>
      run r1 s caps (fun s' caps' => k s' ((n, consumed s s') :: caps'))
  end.

(** [pattern.match] at the current position: the groups and the text
    that follows the match. *)
Definition re_match (r : regex) (s : text) : option (captures * text) :=
  run r s [] (fun s' caps => Some (caps, s')).

Fixpoint group (caps : captures) (n : nat) : text :=
  match caps with
  | [] => []
  | (m, g) :: caps' => if Nat.eqb m n then g else group caps' n
  end.

Definition expand (tmpl : template) (caps : captures) : text :=
  flat_map (fun i => match i with
                     | TLit l => l
                     | TGroup n => group caps n
                     end) tmpl.

(** [re.sub]: scan from the left; at a match emit the expanded template
    and go on behind it, otherwise copy one character.  An empty match
    is replaced and the scan then steps over one character. *)
Fixpoint sub_loop (fuel : nat) (r : regex) (tmpl : template) (s : text)
  : text :=
  match fuel with
  | O => s
  | S fuel' =>
      let step := match s with
                  | [] => []
                  | c :: t => c :: sub_loop fuel' r tmpl t
                  end in
      match re_match r s with
      | Some (caps, rest) =>
          expand tmpl caps ++
          (if length rest <? length s
           then sub_loop fuel' r tmpl rest
           else step)
      | None => step
      end
  end.

Definition re_sub (r : regex) (tmpl : template) (s : text) : text :=
  sub_loop (S (length s)) r tmpl s.

End Re.

Import Re.

(* ------------------------------------------------------------------ *)
(** ** The script *)

Definition DEFAULT_ITERATIONS_COUNT : Z := 100.
Definition DEFAULT_APPEND_OUTPUT_EXT : string := ".fixed.js".

(** [[a-zA-Z0-9_]] *)
Definition word_set : charset :=
  CharSet false [("a", "z"); ("A", "Z"); ("0", "9"); ("_", "_")]%char.

(** [[^\n]] *)
Definition not_newline : charset := CharSet true [(NL, NL)].

(** r'\.(@@[a-zA-Z0-9_]+)' *)
Definition dotted_special_re : regex :=
  Cat (Str (T ".")) (Group 1 (Cat (Str (T "@@")) (Rep 1 word_set))).

(** r'[`\1`]' *)
Definition dotted_special_repl : template :=
  [TLit (T "[`"); TGroup 1; TLit (T "`]")].

(** The pattern of the second entry is three groups in a row, written
    r'(G1)(G2)(G3)' with G1 [= /[^\n]*], G2 [\\\\/] and G3 [[^\n]*/].  In
    the pattern each pair of backslashes stands for one literal
    backslash, so group 2 is backslash, backslash, slash. *)
Definition regex_escape_re : regex :=
  Cat (Group 1 (Cat (Str (T "= /")) (Rep 0 not_newline)))
      (Cat (Group 2 (Str (T "\\/")))
           (Group 3 (Cat (Rep 0 not_newline) (Str (T "/"))))).

(** r'\1\\/\3': in the template the pair of backslashes stands for one
    backslash. *)
Definition regex_escape_repl : template :=
  [TGroup 1; TLit (T "\/"); TGroup 3].

(** The [replacements] dict, in insertion order. *)
Definition replacements : list (regex * template) :=
  [ (dotted_special_re, dotted_special_repl);
    (regex_escape_re, regex_escape_repl) ].

(** Python's [range(lo, hi)]. *)
Definition range (lo hi : Z) : list Z :=
  map (fun i => (lo + Z.of_nat i)%Z) (seq 0 (Z.to_nat (hi - lo))).

(** The two nested [for] loops of the function. *)
Definition apply_replacements (data : text) (iterations : Z) : text :=
  fold_left
    (fun data _ =>
       fold_left
         (fun data (entry : regex * template) =>
            let (regex, replace_with) := entry in
            re_sub regex replace_with data)
         replacements data)
    (range 0 iterations) data.

(** *** Files and the command line *)

(** A file is known by an identity; a path names a file, and several
    paths may name one file (links). *)
Definition file_id := nat.

(** What the script can see and change of the file system.
    - [names]: the file each path names, links followed (the first
      entry for a path counts);
    - [store]: the text each file holds;
    - [can_read]: whether [open(path, 'r')] and [f.read()] go through
      (the path is there, may be read and decodes);
    - [can_open_w]: whether [open(path, 'w')] goes through;
    - [write_limit]: [None] when [f.write] and the closing flush go
      through, [Some k] when they fail after [k] characters have
      reached the file;
    - [fresh]: the identity the next new file gets. *)
Record filesystem := FileSystem {
  names : list (string * file_id);
  store : file_id -> text;
  can_read : string -> bool;
  can_open_w : string -> bool;
  write_limit : string -> option nat;
  fresh : file_id
}.

Fixpoint lookup (tbl : list (string * file_id)) (path : string)
  : option file_id :=
  match tbl with
  | [] => None
  | (p, id) :: rest => if String.eqb p path then Some id else lookup rest path
  end.

(** No path names the identity kept for the next new file. *)
Definition well_formed (fs : filesystem) : bool :=
  forallb (fun e : string * file_id => snd e <? fresh fs) (names fs).

(** [open(path, 'r')] followed by [f.read()]. *)
Definition read_text (fs : filesystem) (path : string) : option text :=
  if can_read fs path
  then option_map (store fs) (lookup (names fs) path)
  else None.

Definition set_text (fs : filesystem) (id : file_id) (data : text)
  : filesystem :=
  {| names := names fs;
     store := fun i => if Nat.eqb i id then data else store fs i;
     can_read := can_read fs;
     can_open_w := can_open_w fs;
     write_limit := write_limit fs;
     fresh := fresh fs |}.

(** [open(path, 'w')]: the file the path names is emptied at once; a
    path that names no file gets a new, empty file.  [None] when the
    open raises, and then nothing has changed. *)
Definition open_w (fs : filesystem) (path : string)
  : option (file_id * filesystem) :=
  if can_open_w fs path then
    match lookup (names fs) path with
    | Some id => Some (id, set_text fs id [])
    | None =>
        Some (fresh fs,
              {| names := (path, fresh fs) :: names fs;
                 store := fun i => if Nat.eqb i (fresh fs) then []
                                   else store fs i;
                 can_read := can_read fs;
                 can_open_w := can_open_w fs;
                 write_limit := write_limit fs;
                 fresh := S (fresh fs) |})
    end
  else None.

(** [f.write(data)] and the end of the [with] block on the file opened
    at [path]: whether it went through, and what the file then holds. *)
Definition write_text (fs : filesystem) (path : string) (id : file_id)
           (data : text) : bool * filesystem :=
  match write_limit fs path with
  | None => (true, set_text fs id data)
  | Some k => (false, set_text fs id (firstn k data))
  end.

(** An [open] or a [read] that raises. *)
Inductive exception : Type :=
| OSError (path : string).

Definition fix_react_native_hermes_decompilation
           (fs : filesystem) (fpath : string) (iterations : Z)
  : exception + text :=
  match read_text fs fpath with
  | None => inl (OSError fpath)
  | Some data => inr (apply_replacements data iterations)
  end.

(** The namespace returned by [argparser.parse_args()]. *)
Record Namespace := {
  file : string;
  out : option string;
  iterations : Z;
  verbose : bool
}.

(** The main block behind [parse_args]: the exit status of the process
    and the file system it leaves.  An exception nobody catches ends
    the process with status 1. *)
Definition main (args : Namespace) (fs : filesystem) : Z * filesystem :=
  let out_fpath :=
    match out args with
    | Some p => if String.eqb p EmptyString
                then String.append (file args) DEFAULT_APPEND_OUTPUT_EXT
                else p
    | None => String.append (file args) DEFAULT_APPEND_OUTPUT_EXT
    end in
  match fix_react_native_hermes_decompilation fs (file args)
                                              (iterations args) with
  | inl _ => (1%Z, fs)
  | inr FIXED_DATA =>
      match open_w fs out_fpath with
      | None => (1%Z, fs)
      | Some (f, fs1) =>
          match write_text fs1 out_fpath f FIXED_DATA with
          | (true, fs2) => (0%Z, fs2)
          | (false, fs2) => (1%Z, fs2)
          end
      end
  end.

(** What [argparser.parse_args()] makes of the command line: it ends
    the process itself (status 2 on a usage error, status 0 when it
    prints the help for a shortened help option), or it returns the
    namespace.  The parser is argparse's, so it is a parameter of the
    script. *)
Inductive parse_result : Type :=
| ParseExit (status : Z)
| Parsed (args : Namespace).

(** ['-h' in sys.argv or '--help' in sys.argv] *)
Definition help_requested (argv : list string) : bool :=
  existsb (String.eqb "-h") argv || existsb (String.eqb "--help") argv.

(** The whole main block, from [sys.argv]. *)
Definition script (parse_args : list string -> parse_result)
           (argv : list string) (fs : filesystem) : Z * filesystem :=
  if help_requested argv then (0%Z, fs)
  else match parse_args argv with
       | ParseExit status => (status, fs)
       | Parsed args => main args fs
       end.

(** A file system for examples: an input with a second name linked to
    it, and an output left by an earlier run. *)
Definition example_fs (readable : bool) (limit : option nat) : filesystem :=
  {| names := [("in.js"%string, 0); ("link.js"%string, 0);
               ("out.js"%string, 1)];
     store := fun i => match i with
                       | 0 => T "obj.@@iterator"
                       | 1 => T "old text"
                       | _ => []
                       end;
     can_read := fun _ => readable;
     can_open_w := fun _ => true;
     write_limit := fun _ => limit;
     fresh := 2 |}.

Definition example_args (o : option string) : Namespace :=
  {| file := "in.js"; out := o; iterations := 1%Z; verbose := false |}.

(* ------------------------------------------------------------------ *)
(** ** The specification's vocabulary *)

(** Rule 1 and rule 2 of the specification, each applied to a whole
    text. *)
Definition rule1 (t : text) : text :=
  re_sub dotted_special_re dotted_special_repl t.

Definition rule2 (t : text) : text :=
  re_sub regex_escape_re regex_escape_repl t.

(** One pass: rule 1, then rule 2 on its output. *)
Definition one_pass (t : text) : text := rule2 (rule1 t).

(** The rewriter as the specification words it: the [n]-fold
    composition of one pass. *)
Definition rewrite_spec (t : text) (n : nat) : text :=
  Nat.iter n one_pass t.

Definition starts_with (p s : text) : bool :=
  match strip_prefix p s with
  | Some _ => true
  | None => false
  end.

Definition newline_free (s : text) : bool :=
  forallb (fun c => negb (Ascii.eqb c NL)) s.

Definition newlines (s : text) : nat := count_occ ascii_dec s NL.

(** A dot, two at-signs and at least one identifier character start
    here. *)
Definition dotted_special_here (s : text) : bool :=
  match strip_prefix (T ".@@") s with
  | Some (c :: _) => in_set word_set c
  | _ => false
  end.

(** The first defect: a dotted special identifier somewhere in the
    text. *)
Fixpoint has_dotted_special (s : text) : bool :=
  match s with
  | [] => false
  | _ :: t => dotted_special_here s || has_dotted_special t
  end.

(** The end of an identifier: the text stops or goes on with a
    character outside the identifier set. *)
Definition word_boundary (s : text) : bool :=
  match s with
  | [] => true
  | c :: _ => negb (in_set word_set c)
  end.

(** The graph of rule 1: what its scan does with a text, one step of
    the scan for each constructor. *)
Inductive rule1_graph : text -> text -> Prop :=
| rule1_done : rule1_graph [] []
| rule1_copy (c : ascii) (t t' : text) :
    dotted_special_here (c :: t) = false ->
    rule1_graph t t' ->
    rule1_graph (c :: t) (c :: t')
| rule1_replace (w rest rest' : text) :
    w <> [] ->
    forallb (in_set word_set) w = true ->
    word_boundary rest = true ->
    rule1_graph rest rest' ->
    rule1_graph (T ".@@" ++ w ++ rest)
                (T "[`" ++ T "@@" ++ w ++ T "`]" ++ rest').

(** Characters that neither start a match of rule 1 nor start its
    replacement. *)
Definition inert (p : text) : bool :=
  forallb (fun c => negb (Ascii.eqb c ".") && negb (Ascii.eqb c "[")) p.

(** [pre] stops where a line starts: it is empty or ends in a newline.
    [post] starts where a line stops: it is empty or starts with a
    newline. *)
Definition at_line_start (pre : text) : bool :=
  match rev pre with
  | [] => true
  | c :: _ => Ascii.eqb c NL
  end.

Definition at_line_end (post : text) : bool :=
  match post with
  | [] => true
  | c :: _ => Ascii.eqb c NL
  end.

(** A slash on the rest of the current line. *)
Fixpoint line_has_slash (s : text) : bool :=
  match s with
  | [] => false
  | c :: t =>
      if Ascii.eqb c NL then false
      else Ascii.eqb c SLASH || line_has_slash t
  end.

(** On the rest of the current line: backslash, backslash, slash, with
    one more slash further along the line. *)
Fixpoint line_has_over_escape (s : text) : bool :=
  match s with
  | [] => false
  | c :: t =>
      if Ascii.eqb c NL then false
      else (starts_with (T "\\/") s && line_has_slash (skipn 3 s))
           || line_has_over_escape t
  end.

Definition regex_defect_here (s : text) : bool :=
  starts_with (T "= /") s && line_has_over_escape (skipn 3 s).

(** The second defect: an over-escaped slash inside a regex-literal
    assignment somewhere in the text. *)
Fixpoint has_regex_defect (s : text) : bool :=
  match s with
  | [] => false
  | _ :: t => regex_defect_here s || has_regex_defect t
  end.

(** The text [= /] occurs in [s]. *)
Fixpoint has_assign (s : text) : bool :=
  match s with
  | [] => false
  | _ :: t => starts_with (T "= /") s || has_assign t
  end.

(** How many over-escaped sequences (backslash, backslash, slash) a
    text holds. *)
Fixpoint over_escapes (s : text) : nat :=
  match s with
  | [] => 0
  | _ :: t => (if starts_with (T "\\/") s then 1 else 0) + over_escapes t
  end.

Fixpoint ends_with_backslash (s : text) : bool :=
  match s with
  | [] => false
  | c :: t =>
      match t with
      | [] => Ascii.eqb c BS
      | _ :: _ => ends_with_backslash t
      end
  end.

(** Repairing the leftmost over-escaped sequence of a text and nothing
    else. *)
Fixpoint repair_leftmost (s : text) : text :=
  match s with
  | [] => []
  | c :: t =>
      if starts_with (T "\\/") s then T "\/" ++ skipn 3 s
      else c :: repair_leftmost t
  end.

(** A pattern none of whose characters or sets accepts a newline. *)
Fixpoint regex_newline_free (r : regex) : bool :=
  match r with
  | Str l => newline_free l
  | Rep _ cs => negb (in_set cs NL)
  | Cat r1 r2 => regex_newline_free r1 && regex_newline_free r2
  | Group _ r1 => regex_newline_free r1
  end.

Definition template_newline_free (tmpl : template) : bool :=
  forallb (fun i => match i with
                    | TLit l => newline_free l
                    | TGroup _ => true
                    end) tmpl.

Definition captures_newline_free (caps : captures) : bool :=
  forallb (fun g => newline_free (snd g)) caps.

(** *** Measures of a text *)

Definition backslashes (s : text) : nat := count_occ ascii_dec s BS.

(** The backslashes on the rest of the current line. *)
Fixpoint line_backslashes (s : text) : nat :=
  match s with
  | [] => 0
  | c :: t =>
      if Ascii.eqb c NL then 0
      else (if Ascii.eqb c BS then 1 else 0) + line_backslashes t
  end.

(** The largest number of backslashes on one line of the text. *)
Fixpoint max_line_backslashes (s : text) : nat :=
  match s with
  | [] => 0
  | _ :: t => Nat.max (line_backslashes s) (max_line_backslashes t)
  end.

(** The characters that are neither a dot, a bracket, a backtick nor a
    backslash, in order. *)
Definition payload (s : text) : text :=
  filter (fun c => negb (existsb (Ascii.eqb c) (T ".[`]\"))) s.

(** The path the main block opens for writing. *)
Definition output_path (args : Namespace) : string :=
  match out args with
  | Some p => if String.eqb p EmptyString
              then String.append (file args) DEFAULT_APPEND_OUTPUT_EXT
              else p
  | None => String.append (file args) DEFAULT_APPEND_OUTPUT_EXT
  end.

(* ------------------------------------------------------------------ *)
(** ** Facts about the matcher *)

Lemma strip_prefix_app (p s : text) : strip_prefix p (p ++ s) = Some s.
Proof.
  induction p as [|a p IH]; simpl; [reflexivity|].
  now rewrite Ascii.eqb_refl.
Qed.

Lemma strip_prefix_some (p s s' : text) :
  strip_prefix p s = Some s' -> s = p ++ s'.
Proof.
  revert s; induction p as [|a p IH]; intros [|b s]; simpl; try congruence.
  destruct (Ascii.eqb_spec a b) as [->|]; [|discriminate].
  intros H; now rewrite (IH _ H).
Qed.

Lemma consumed_app (w s' : text) : consumed (w ++ s') s' = w.
Proof.
  unfold consumed. rewrite length_app.
  replace (length w + length s' - length s') with (length w) by lia.
  rewrite firstn_app, firstn_all, Nat.sub_diag. simpl. apply app_nil_r.
Qed.

Section MaxRepeat.
Variable A : Type.
Variable cs : charset.
Variable k : text -> option A.

(** A successful repetition stops at some split of the input whose
    front lies in the set and is long enough. *)
Lemma max_repeat_some (s : text) :
  forall (min : nat) (r : A),
    max_repeat cs min s k = Some r ->
    exists w s', s = w ++ s' /\ forallb (in_set cs) w = true /\
                 min <= length w /\ k s' = Some r.
Proof.
  induction s as [|c t IH]; intros min r; simpl.
  - destruct min; [|discriminate]. intros H.
    exists [], []. simpl; auto.
  - destruct (in_set cs c) eqn:Hc.
    + destruct (max_repeat cs (pred min) t k) eqn:Hrec.
      * intros [= <-]. destruct (IH _ _ Hrec) as (w & s' & -> & Hw & Hlen & Hk).
        exists (c :: w), s'. simpl. rewrite Hc, Hw. repeat split; auto. lia.
      * destruct min; [|discriminate]. intros H.
        exists [], (c :: t). simpl; auto.
    + destruct min; [|discriminate]. intros H.
      exists [], (c :: t). simpl; auto.
Qed.

(** When the rest of the pattern fails behind every longer run, the
    repetition stops where it stands. *)
Lemma max_repeat_stop (s : text) :
  forall min : nat,
    (forall w1 s1, s = w1 ++ s1 -> w1 <> [] ->
                   forallb (in_set cs) w1 = true -> k s1 = None) ->
    max_repeat cs min s k = match min with O => k s | S _ => None end.
Proof.
  induction s as [|c t IH]; intros min Hfail; simpl; [reflexivity|].
  destruct (in_set cs c) eqn:Hc; [|reflexivity].
  rewrite IH.
  - assert (Hk : k t = None).
    { apply (Hfail [c] t); simpl; try congruence. now rewrite Hc. }
    rewrite Hk. now destruct (pred min).
  - intros w1 s1 -> Hne Hw1. apply (Hfail (c :: w1) s1); simpl; try congruence.
    now rewrite Hc.
Qed.

(** Greediness: the repetition takes the longest run behind which the
    rest of the pattern succeeds. *)
Lemma max_repeat_greedy (w s' : text) :
  forall (min : nat) (r : A),
    forallb (in_set cs) w = true ->
    min <= length w ->
    k s' = Some r ->
    (forall w1 s1, s' = w1 ++ s1 -> w1 <> [] ->
                   forallb (in_set cs) w1 = true -> k s1 = None) ->
    max_repeat cs min (w ++ s') k = Some r.
Proof.
  induction w as [|c w IH]; intros min r Hw Hlen Hk Hfail.
  - simpl in *. rewrite max_repeat_stop by assumption.
    destruct min; [assumption|lia].
  - simpl in *. apply andb_prop in Hw as [Hc Hw]. rewrite Hc.
    rewrite (IH (pred min) r); auto. lia.
Qed.

(** A repetition cannot run into a character outside its set. *)
Lemma max_repeat_barrier (q y : text) (c : ascii) :
  in_set cs c = false ->
  forall min : nat,
    max_repeat cs min (q ++ c :: y) k
    = max_repeat cs min q (fun s' => k (s' ++ c :: y)).
Proof.
  intros Hc. induction q as [|a q IH]; intros min; simpl.
  - now rewrite Hc.
  - now rewrite IH.
Qed.
End MaxRepeat.

(** *** [re.sub] does not depend on its fuel *)

Lemma sub_loop_fuel (r : regex) (tmpl : template) :
  forall (f1 f2 : nat) (s : text),
    length s < f1 -> length s < f2 ->
    sub_loop f1 r tmpl s = sub_loop f2 r tmpl s.
Proof.
  induction f1 as [|f1 IH]; intros f2 s H1 H2; [lia|].
  destruct f2 as [|f2]; [lia|]. simpl.
  assert (Hstep : match s with [] => [] | c :: t => c :: sub_loop f1 r tmpl t end
                  = match s with [] => [] | c :: t => c :: sub_loop f2 r tmpl t end).
  { destruct s as [|c t]; [reflexivity|]. simpl in *. f_equal. apply IH; lia. }
  destruct (re_match r s) as [[caps rest]|]; [|exact Hstep].
  f_equal. destruct (Nat.ltb_spec (length rest) (length s)); [|exact Hstep].
  apply IH; lia.
Qed.

Lemma sub_loop_S (f : nat) (r : regex) (tmpl : template) (s : text) :
  sub_loop (S f) r tmpl s
  = match re_match r s with
    | Some (caps, rest) =>
        expand tmpl caps ++
        (if length rest <? length s then sub_loop f r tmpl rest
         else match s with [] => [] | c :: t => c :: sub_loop f r tmpl t end)
    | None => match s with [] => [] | c :: t => c :: sub_loop f r tmpl t end
    end.
Proof. reflexivity. Qed.

(** The scan, one step at a time. *)
Lemma re_sub_nil (r : regex) (tmpl : template) :
  re_sub r tmpl [] = match re_match r [] with
                     | Some (caps, _) => expand tmpl caps
                     | None => []
                     end.
Proof.
  unfold re_sub. rewrite sub_loop_S.
  destruct (re_match r []) as [[caps rest]|]; [|reflexivity].
  replace (length rest <? length (@nil ascii)) with false.
  - now rewrite app_nil_r.
  - symmetry. apply Nat.ltb_ge. simpl. lia.
Qed.

Lemma re_sub_cons (r : regex) (tmpl : template) (c : ascii) (t : text) :
  re_sub r tmpl (c :: t)
  = match re_match r (c :: t) with
    | Some (caps, rest) =>
        expand tmpl caps ++
        (if length rest <? length (c :: t) then re_sub r tmpl rest
         else c :: re_sub r tmpl t)
    | None => c :: re_sub r tmpl t
    end.
Proof.
  unfold re_sub. rewrite (sub_loop_S (length (c :: t))).
  destruct (re_match r (c :: t)) as [[caps rest]|]; [|reflexivity].
  f_equal. destruct (Nat.ltb_spec (length rest) (length (c :: t))) as [Hlt|Hge].
  - apply sub_loop_fuel; simpl in *; lia.
  - reflexivity.
Qed.

(** *** Newlines *)

Lemma newline_free_app (a b : text) :
  newline_free (a ++ b) = newline_free a && newline_free b.
Proof. apply forallb_app. Qed.

Lemma newlines_app (a b : text) : newlines (a ++ b) = newlines a + newlines b.
Proof. apply count_occ_app. Qed.

Lemma newline_free_newlines (w : text) :
  newline_free w = true -> newlines w = 0.
Proof.
  induction w as [|c w IH]; simpl; [reflexivity|].
  intros H. apply andb_prop in H as [Hc Hw].
  unfold newlines in *. simpl. destruct (ascii_dec c NL) as [->|_].
  - now rewrite Ascii.eqb_refl in Hc.
  - auto.
Qed.

Lemma in_set_newline_free (cs : charset) (w : text) :
  in_set cs NL = false ->
  forallb (in_set cs) w = true -> newline_free w = true.
Proof.
  intros Hnl. induction w as [|c w IH]; simpl; [reflexivity|].
  intros H. apply andb_prop in H as [Hc Hw]. rewrite (IH Hw), andb_true_r.
  destruct (Ascii.eqb_spec c NL) as [->|]; [congruence|reflexivity].
Qed.

(** A pattern without newlines consumes none and captures none. *)
Lemma run_newline_free (r : regex) :
  regex_newline_free r = true ->
  forall s caps k res,
    captures_newline_free caps = true ->
    run r s caps k = Some res ->
    exists w s' caps',
      s = w ++ s' /\ newline_free w = true /\
      captures_newline_free caps' = true /\ k s' caps' = Some res.
Proof.
  induction r as [l|min cs|r1 IH1 r2 IH2|n r1 IH1]; simpl; intros Hr s caps k res Hcaps Hrun.
  - destruct (strip_prefix l s) as [s'|] eqn:Hs; [|discriminate].
    exists l, s', caps. rewrite (strip_prefix_some _ _ _ Hs). auto.
  - apply max_repeat_some in Hrun as (w & s' & -> & Hw & _ & Hk).
    exists w, s', caps. repeat split; auto.
    apply in_set_newline_free with cs; auto.
    now apply negb_true_iff.
  - apply andb_prop in Hr as [Hr1 Hr2].
    destruct (IH1 Hr1 _ _ _ _ Hcaps Hrun) as (w1 & s1 & caps1 & -> & Hw1 & Hc1 & Hk1).
    destruct (IH2 Hr2 _ _ _ _ Hc1 Hk1) as (w2 & s2 & caps2 & -> & Hw2 & Hc2 & Hk2).
    exists (w1 ++ w2), s2, caps2. rewrite <- app_assoc, newline_free_app, Hw1, Hw2.
    auto.
  - destruct (IH1 Hr _ _ _ _ Hcaps Hrun) as (w & s' & caps' & -> & Hw & Hc & Hk).
    rewrite consumed_app in Hk.
    exists w, s', ((n, w) :: caps'). repeat split; auto.
    simpl. now rewrite Hw, Hc.
Qed.

Lemma re_match_newline_free (r : regex) (s : text) caps rest :
  regex_newline_free r = true ->
  re_match r s = Some (caps, rest) ->
  exists w, s = w ++ rest /\ newline_free w = true /\
            captures_newline_free caps = true.
Proof.
  intros Hr Hm. unfold re_match in Hm.
  destruct (run_newline_free r Hr s [] _ _ (eq_refl : captures_newline_free [] = true) Hm)
    as (w & s' & caps' & -> & Hw & Hc & [= <- <-]).
  exists w. auto.
Qed.

Lemma group_newline_free (caps : captures) (n : nat) :
  captures_newline_free caps = true -> newline_free (group caps n) = true.
Proof.
  induction caps as [|[m g] caps IH]; simpl; [reflexivity|].
  intros H. apply andb_prop in H as [Hg Hc].
  destruct (Nat.eqb m n); auto.
Qed.

Lemma expand_newline_free (tmpl : template) (caps : captures) :
  template_newline_free tmpl = true ->
  captures_newline_free caps = true ->
  newline_free (expand tmpl caps) = true.
Proof.
  intros Ht Hc. induction tmpl as [|i tmpl IH]; simpl; [reflexivity|].
  simpl in Ht. apply andb_prop in Ht as [Hi Ht].
  unfold expand in *. rewrite newline_free_app, (IH Ht), andb_true_r.
  destruct i as [l|n]; [assumption|]. now apply group_newline_free.
Qed.

(** [re.sub] with such a pattern and template keeps every newline. *)
Lemma sub_loop_newlines (r : regex) (tmpl : template) :
  regex_newline_free r = true ->
  template_newline_free tmpl = true ->
  forall (fuel : nat) (s : text),
    newlines (sub_loop fuel r tmpl s) = newlines s.
Proof.
  intros Hr Ht. induction fuel as [|fuel IH]; intros s; [reflexivity|].
  rewrite sub_loop_S.
  assert (Hstep : newlines (match s with
                            | [] => []
                            | c :: t => c :: sub_loop fuel r tmpl t
                            end) = newlines s).
  { destruct s as [|c t]; [reflexivity|].
    change (c :: sub_loop fuel r tmpl t) with ([c] ++ sub_loop fuel r tmpl t).
    change (c :: t) with ([c] ++ t). now rewrite !newlines_app, IH. }
  destruct (re_match r s) as [[caps rest]|] eqn:Hm; [|exact Hstep].
  destruct (re_match_newline_free _ _ _ _ Hr Hm) as (w & Hs & Hw & Hc).
  rewrite newlines_app.
  rewrite (newline_free_newlines _ (expand_newline_free _ _ Ht Hc)). simpl.
  destruct (length rest <? length s).
  - rewrite IH, Hs, newlines_app, (newline_free_newlines _ Hw). reflexivity.
  - exact Hstep.
Qed.

(** *** More on prefixes, repetitions and groups *)

Lemma strip_prefix_split (p1 p2 s : text) :
  strip_prefix (p1 ++ p2) s
  = match strip_prefix p1 s with
    | Some s1 => strip_prefix p2 s1
    | None => None
    end.
Proof.
  revert s; induction p1 as [|a p1 IH]; intros s; simpl; [reflexivity|].
  destruct s as [|b s]; [reflexivity|]. destruct (Ascii.eqb a b); auto.
Qed.

Lemma max_repeat_map (A B : Type) (F : A -> B) (cs : charset)
      (k1 : text -> option A) (k2 : text -> option B) :
  (forall s', k2 s' = option_map F (k1 s')) ->
  forall (s : text) (min : nat),
    max_repeat cs min s k2 = option_map F (max_repeat cs min s k1).
Proof.
  intros Hk. induction s as [|c t IH]; intros min; simpl.
  - destruct min; [apply Hk|reflexivity].
  - destruct (in_set cs c).
    + rewrite IH. destruct (max_repeat cs (pred min) t k1); simpl; [reflexivity|].
      destruct min; [apply Hk|reflexivity].
    + destruct min; [apply Hk|reflexivity].
Qed.

Lemma consumed_ext (x s' z : text) :
  consumed (x ++ z) (s' ++ z) = consumed x s'.
Proof.
  unfold consumed. rewrite !length_app.
  replace (length x + length z - (length s' + length z))
    with (length x - length s') by lia.
  rewrite firstn_app.
  replace (length x - length s' - length x) with 0 by lia.
  simpl. apply app_nil_r.
Qed.

(** *** Splitting the scan *)

(** When every match that starts in front of [z] ends in front of it,
    [re.sub] treats the two sides of the split independently. *)
Lemma re_sub_split (r : regex) (tmpl : template) (z : text) :
  re_match r [] = None ->
  (forall p : text,
      p <> [] ->
      re_match r (p ++ z)
      = option_map (fun m : captures * text => (fst m, snd m ++ z))
                   (re_match r p)) ->
  forall (n : nat) (pre : text),
    length pre <= n ->
    re_sub r tmpl (pre ++ z) = re_sub r tmpl pre ++ re_sub r tmpl z.
Proof.
  intros Hnil Hext.
  assert (Hsub : re_sub r tmpl [] = []) by now rewrite re_sub_nil, Hnil.
  induction n as [|n IH]; intros pre Hlen.
  - destruct pre; [now rewrite Hsub|simpl in Hlen; lia].
  - destruct pre as [|c p]; [now rewrite Hsub|].
    cbn [app].
    rewrite (re_sub_cons _ _ c (p ++ z)), (re_sub_cons _ _ c p).
    change (c :: p ++ z) with ((c :: p) ++ z).
    rewrite (Hext (c :: p)) by congruence.
    destruct (re_match r (c :: p)) as [[caps rest]|]; cbn [option_map fst snd].
    + rewrite <- app_assoc. f_equal.
      replace (length (rest ++ z) <? length ((c :: p) ++ z))
        with (length rest <? length (c :: p)).
      * destruct (Nat.ltb_spec (length rest) (length (c :: p))) as [Hlt|Hge].
        -- apply IH. simpl in *. lia.
        -- cbn [app]. f_equal. apply IH. simpl in *. lia.
      * rewrite !length_app.
        destruct (Nat.ltb_spec (length rest) (length (c :: p)));
          destruct (Nat.ltb_spec (length rest + length z)
                                 (length (c :: p) + length z));
          try reflexivity; lia.
    + cbn [app]. f_equal. apply IH. simpl in *. lia.
Qed.

(** *** Newlines as barriers *)

Lemma max_repeat_ext (A : Type) (cs : charset) (k1 k2 : text -> option A) :
  (forall s, k1 s = k2 s) ->
  forall (s : text) (min : nat),
    max_repeat cs min s k1 = max_repeat cs min s k2.
Proof.
  intros Hk. induction s as [|c t IH]; intros min; simpl.
  - now rewrite Hk.
  - now rewrite IH, Hk.
Qed.

Lemma run_ext (r : regex) :
  forall (s : text) (caps : captures)
         (k1 k2 : text -> captures -> option (captures * text)),
    (forall s' caps', k1 s' caps' = k2 s' caps') ->
    run r s caps k1 = run r s caps k2.
Proof.
  induction r as [l|min cs|r1 IH1 r2 IH2|n r1 IH1]; intros s caps k1 k2 Hk;
    cbn [run].
  - destruct (strip_prefix l s); [apply Hk|reflexivity].
  - apply max_repeat_ext. intros s'. apply Hk.
  - apply IH1. intros s' caps'. now apply IH2.
  - apply IH1. intros s' caps'. apply Hk.
Qed.

Lemma strip_prefix_newline (l s q : text) :
  newline_free l = true ->
  strip_prefix l (s ++ NL :: q)
  = option_map (fun s' => s' ++ NL :: q) (strip_prefix l s).
Proof.
  revert s. induction l as [|a l IH]; intros s Hl; [reflexivity|].
  cbn [newline_free forallb] in Hl. apply andb_prop in Hl as [Ha Hl].
  apply negb_true_iff in Ha.
  destruct s as [|b s]; cbn [app strip_prefix option_map].
  - now rewrite Ha.
  - destruct (Ascii.eqb a b); [now apply IH|reflexivity].
Qed.

(** A pattern without newlines never looks beyond the next newline. *)
Lemma run_newline (r : regex) (q : text) :
  regex_newline_free r = true ->
  forall (s : text) (caps : captures)
         (k : text -> captures -> option (captures * text)),
    run r (s ++ NL :: q) caps k
    = run r s caps (fun s' caps' => k (s' ++ NL :: q) caps').
Proof.
  induction r as [l|min cs|r1 IH1 r2 IH2|n r1 IH1]; intros Hr s caps k;
    cbn [run regex_newline_free] in *.
  - rewrite (strip_prefix_newline l s q Hr).
    now destruct (strip_prefix l s).
  - apply max_repeat_barrier. now apply negb_true_iff.
  - apply andb_prop in Hr as [Hr1 Hr2].
    rewrite (IH1 Hr1). apply run_ext. intros s' caps'. now apply IH2.
  - rewrite (IH1 Hr). apply run_ext. intros s' caps'.
    now rewrite consumed_ext.
Qed.

Lemma run_map (F : captures * text -> captures * text) (r : regex) :
  forall (s : text) (caps : captures)
         (k1 k2 : text -> captures -> option (captures * text)),
    (forall s' caps', k1 s' caps' = option_map F (k2 s' caps')) ->
    run r s caps k1 = option_map F (run r s caps k2).
Proof.
  induction r as [l|min cs|r1 IH1 r2 IH2|n r1 IH1]; intros s caps k1 k2 Hk;
    cbn [run].
  - destruct (strip_prefix l s); [apply Hk|reflexivity].
  - apply max_repeat_map. intros s'. apply Hk.
  - apply IH1. intros s' caps'. now apply IH2.
  - apply IH1. intros s' caps'. apply Hk.
Qed.

Lemma re_match_newline (r : regex) (p q : text) :
  regex_newline_free r = true ->
  re_match r (p ++ NL :: q)
  = option_map (fun m : captures * text => (fst m, snd m ++ NL :: q))
               (re_match r p).
Proof.
  intros Hr. unfold re_match. rewrite (run_newline r q Hr).
  apply run_map. reflexivity.
Qed.

(** [re.sub] with such a pattern works line by line. *)
Lemma re_sub_lines (r : regex) (tmpl : template) (p q : text) :
  regex_newline_free r = true ->
  re_match r [] = None ->
  re_sub r tmpl (p ++ NL :: q) = re_sub r tmpl p ++ NL :: re_sub r tmpl q.
Proof.
  intros Hr Hnil.
  rewrite (re_sub_split r tmpl (NL :: q) Hnil
                        (fun p' _ => re_match_newline r p' q Hr)
                        (length p) p (le_n _)).
  f_equal. rewrite re_sub_cons.
  change (NL :: q) with ([] ++ NL :: q) at 1.
  now rewrite (re_match_newline r [] q Hr), Hnil.
Qed.

(* ------------------------------------------------------------------ *)
(** ** The loop *)

Lemma inner_loop_one_pass (data : text) :
  fold_left (fun data (entry : regex * template) =>
               let (regex, replace_with) := entry in
               re_sub regex replace_with data)
            replacements data
  = one_pass data.
Proof. reflexivity. Qed.

Lemma fold_left_iter (X : Type) (f : text -> text) (l : list X) :
  forall d : text,
    fold_left (fun d _ => f d) l d = Nat.iter (length l) f d.
Proof.
  induction l as [|x l IH]; intros d; simpl; [reflexivity|].
  rewrite IH. change (f (Nat.iter (length l) f d)) with (Nat.iter (S (length l)) f d).
  now rewrite Nat.iter_succ_r.
Qed.

Lemma range_length (n : Z) : length (range 0 n) = Z.to_nat n.
Proof.
  unfold range. now rewrite length_map, length_seq, Z.sub_0_r.
Qed.

Lemma apply_replacements_iter (data : text) (n : Z) :
  apply_replacements data n = Nat.iter (Z.to_nat n) one_pass data.
Proof.
  unfold apply_replacements.
  rewrite <- range_length.
  apply (fold_left_iter Z one_pass (range 0 n) data).
Qed.

Lemma apply_replacements_succ (data : text) (n : Z) :
  (0 <= n)%Z ->
  apply_replacements data (n + 1) = one_pass (apply_replacements data n).
Proof.
  intros Hn. rewrite !apply_replacements_iter.
  replace (Z.to_nat (n + 1)) with (S (Z.to_nat n)) by lia. reflexivity.
Qed.

Lemma iter_fixed (f : text -> text) (x : text) :
  f x = x -> forall m : nat, Nat.iter m f x = x.
Proof.
  intros Hx. induction m as [|m IH]; simpl; [reflexivity|].
  now rewrite IH.
Qed.

(* ------------------------------------------------------------------ *)
(** ** Rule 1: dotted special identifiers *)

Lemma re_match_dotted_none (s : text) :
  dotted_special_here s = false -> re_match dotted_special_re s = None.
Proof.
  unfold dotted_special_here. change (T ".@@") with (T "." ++ T "@@").
  rewrite strip_prefix_split. intros H.
  unfold re_match, dotted_special_re. cbn [run].
  destruct (strip_prefix (T ".") s) as [s1|]; [|reflexivity].
  destruct (strip_prefix (T "@@") s1) as [[|c q]|]; try reflexivity.
  cbn [max_repeat]. now rewrite H.
Qed.

Lemma re_match_dotted_some (w rest : text) :
  w <> [] ->
  forallb (in_set word_set) w = true ->
  word_boundary rest = true ->
  re_match dotted_special_re (T ".@@" ++ w ++ rest)
  = Some ([(1, T "@@" ++ w)], rest).
Proof.
  intros Hne Hw Hb.
  unfold re_match, dotted_special_re. cbn [run].
  change (T ".@@" ++ w ++ rest) with (T "." ++ T "@@" ++ w ++ rest).
  rewrite strip_prefix_app, strip_prefix_app.
  apply max_repeat_greedy.
  - exact Hw.
  - destruct w; [congruence|simpl; lia].
  - rewrite (app_assoc (T "@@") w rest), consumed_app. reflexivity.
  - intros [|c w1] s1 -> Hne1 Hw1; [congruence|].
    simpl in Hb, Hw1. apply andb_prop in Hw1 as [Hc _].
    rewrite Hc in Hb. discriminate.
Qed.

(** A match that starts in front of a character that is neither an
    at-sign nor an identifier character ends in front of it. *)
Lemma re_match_dotted_ext (p y : text) (b : ascii) :
  in_set word_set b = false ->
  Ascii.eqb "@" b = false ->
  p <> [] ->
  re_match dotted_special_re (p ++ b :: y)
  = option_map (fun m : captures * text => (fst m, snd m ++ b :: y))
               (re_match dotted_special_re p).
Proof.
  intros Hb Hat Hp. unfold re_match, dotted_special_re. cbn [run].
  destruct p as [|a1 p]; [congruence|]. cbn [app T list_ascii_of_string strip_prefix].
  destruct (Ascii.eqb "." a1); [|reflexivity].
  destruct p as [|a2 p]; [cbn [app strip_prefix]; now rewrite Hat|].
  cbn [app strip_prefix].
  destruct (Ascii.eqb "@" a2); [|reflexivity].
  destruct p as [|a3 q]; [cbn [app strip_prefix]; now rewrite Hat|].
  cbn [app strip_prefix].
  destruct (Ascii.eqb "@" a3); [|reflexivity].
  rewrite max_repeat_barrier by exact Hb.
  apply max_repeat_map. intros s'. cbn [option_map fst snd].
  now rewrite <- (consumed_ext (a2 :: a3 :: q) s' (b :: y)).
Qed.

Lemma rule1_nil : rule1 [] = [].
Proof. unfold rule1. now rewrite re_sub_nil. Qed.

(** Rule 1 works on the two sides of such a character independently. *)
Lemma rule1_barrier (b : ascii) (y pre : text) :
  in_set word_set b = false ->
  Ascii.eqb "@" b = false ->
  rule1 (pre ++ b :: y) = rule1 pre ++ rule1 (b :: y).
Proof.
  intros Hb Hat. unfold rule1.
  apply (re_sub_split dotted_special_re dotted_special_repl (b :: y) eq_refl
                      (fun p Hp => re_match_dotted_ext p y b Hb Hat Hp)
                      (length pre) pre (le_n _)).
Qed.

(** Text without the first defect is left alone by rule 1. *)
Lemma rule1_clean (s : text) :
  has_dotted_special s = false -> rule1 s = s.
Proof.
  induction s as [|c t IH]; [intros _; apply rule1_nil|].
  cbn [has_dotted_special]. intros H. apply orb_false_iff in H as [Hhere Ht].
  unfold rule1 in *. rewrite re_sub_cons, (re_match_dotted_none _ Hhere).
  f_equal. auto.
Qed.

(** One occurrence, rewritten in place. *)
Lemma rule1_occurrence (pre w rest : text) :
  w <> [] ->
  forallb (in_set word_set) w = true ->
  word_boundary rest = true ->
  rule1 (pre ++ T ".@@" ++ w ++ rest)
  = rule1 pre ++ T "[`" ++ T "@@" ++ w ++ T "`]" ++ rule1 rest.
Proof.
  intros Hne Hw Hb.
  change (T ".@@" ++ w ++ rest) with ("."%char :: T "@@" ++ w ++ rest).
  rewrite (rule1_barrier "." (T "@@" ++ w ++ rest) pre eq_refl eq_refl).
  f_equal.
  change ("."%char :: T "@@" ++ w ++ rest) with (T ".@@" ++ w ++ rest).
  unfold rule1.
  change (T ".@@" ++ w ++ rest) with ("."%char :: T "@@" ++ w ++ rest) at 1.
  rewrite re_sub_cons.
  change ("."%char :: T "@@" ++ w ++ rest) with (T ".@@" ++ w ++ rest).
  rewrite (re_match_dotted_some _ rest Hne Hw Hb).
  replace (length rest <? length (T ".@@" ++ w ++ rest)) with true.
  - unfold expand, dotted_special_repl. cbn [flat_map group Nat.eqb].
    rewrite app_nil_r, <- !app_assoc. reflexivity.
  - symmetry. apply Nat.ltb_lt. rewrite !length_app. simpl. lia.
Qed.

(* ------------------------------------------------------------------ *)
(** ** Rule 2: over-escaped slashes *)

Lemma in_set_not_newline (c : ascii) :
  in_set not_newline c = negb (Ascii.eqb c NL).
Proof. destruct c as [[] [] [] [] [] [] [] []]; reflexivity. Qed.

Lemma newline_free_forallb (w : text) :
  forallb (in_set not_newline) w = newline_free w.
Proof.
  induction w as [|c w IH]; simpl; [reflexivity|].
  now rewrite IH, in_set_not_newline.
Qed.

Lemma line_has_slash_suffix (w y : text) :
  newline_free w = true ->
  line_has_slash (w ++ y) = false -> line_has_slash y = false.
Proof.
  induction w as [|c w IH]; simpl; [auto|].
  intros H. apply andb_prop in H as [Hc Hw].
  apply negb_true_iff in Hc. rewrite Hc.
  intros H. apply orb_false_iff in H as [_ H]. auto.
Qed.

Lemma line_has_over_escape_suffix (w y : text) :
  newline_free w = true ->
  line_has_over_escape (w ++ y) = false -> line_has_over_escape y = false.
Proof.
  induction w as [|c w IH]; [auto|].
  cbn [app newline_free forallb line_has_over_escape].
  intros H. apply andb_prop in H as [Hc Hw].
  apply negb_true_iff in Hc. rewrite Hc.
  intros H. apply orb_false_iff in H as [_ H]. auto.
Qed.

Lemma line_has_over_escape_prefix (w y : text) :
  newline_free w = true ->
  line_has_over_escape y = true -> line_has_over_escape (w ++ y) = true.
Proof.
  intros Hw Hy.
  destruct (line_has_over_escape (w ++ y)) eqn:H; [reflexivity|].
  rewrite (line_has_over_escape_suffix _ _ Hw H) in Hy. discriminate.
Qed.

(** Group 3 needs a slash on the rest of the line. *)
Lemma closing_group_none (A : Type) (k : text -> option A) (s : text) :
  line_has_slash s = false ->
  max_repeat not_newline 0 s
             (fun s3 => match strip_prefix (T "/") s3 with
                        | Some s4 => k s4
                        | None => None
                        end) = None.
Proof.
  induction s as [|c t IH]; [reflexivity|].
  cbn [line_has_slash max_repeat Nat.pred]. rewrite in_set_not_newline.
  destruct (Ascii.eqb_spec c NL) as [->|Hnl]; cbn [negb].
  - intros _. reflexivity.
  - intros H. apply orb_false_iff in H as [Hc Ht]. rewrite (IH Ht).
    cbn [T list_ascii_of_string strip_prefix].
    change "/"%char with SLASH. rewrite Ascii.eqb_sym, Hc. reflexivity.
Qed.

(** The pattern matches only where the second defect starts. *)
Lemma re_match_escape_none (s : text) :
  regex_defect_here s = false -> re_match regex_escape_re s = None.
Proof.
  intros Hd.
  destruct (re_match regex_escape_re s) as [m|] eqn:Hm; [exfalso|reflexivity].
  unfold re_match, regex_escape_re in Hm. cbn [run] in Hm.
  unfold regex_defect_here, starts_with in Hd.
  destruct (strip_prefix (T "= /") s) as [s0|] eqn:Hs; [|discriminate].
  apply strip_prefix_some in Hs. subst s.
  cbn [andb T list_ascii_of_string app skipn] in Hd.
  apply max_repeat_some in Hm as (w & s1 & -> & Hw & _ & Hk).
  rewrite newline_free_forallb in Hw.
  destruct (strip_prefix (T "\\/") s1) as [s2|] eqn:Hs1; [|discriminate].
  apply strip_prefix_some in Hs1. subst s1.
  destruct (line_has_slash s2) eqn:Hs2.
  - rewrite line_has_over_escape_prefix in Hd; [discriminate|assumption|].
    cbn [T list_ascii_of_string app line_has_over_escape].
    change (Ascii.eqb "\" NL) with false. cbv iota.
    unfold starts_with. cbn [strip_prefix]. rewrite !Ascii.eqb_refl.
    cbn [skipn andb]. now rewrite Hs2.
  - rewrite closing_group_none in Hk by assumption. discriminate.
Qed.

(** Where the pattern matches, and what its groups hold: group 1 runs
    up to the last over-escaped sequence that still has a slash behind
    it, group 3 up to the last slash of the line. *)
Lemma re_match_escape_some (u c d : text) :
  newline_free u = true ->
  newline_free c = true ->
  line_has_over_escape (c ++ SLASH :: d) = false ->
  line_has_slash d = false ->
  re_match regex_escape_re (T "= /" ++ u ++ T "\\/" ++ c ++ SLASH :: d)
  = Some ([(3, c ++ [SLASH]); (2, T "\\/"); (1, T "= /" ++ u)], d).
Proof.
  intros Hu Hc Hesc Hd.
  unfold re_match, regex_escape_re. cbn [run].
  rewrite strip_prefix_app.
  apply max_repeat_greedy.
  - now rewrite newline_free_forallb.
  - lia.
  - rewrite strip_prefix_app.
    apply max_repeat_greedy.
    + now rewrite newline_free_forallb.
    + lia.
    + change (SLASH :: d) with (T "/" ++ d). rewrite strip_prefix_app.
      rewrite (consumed_app (T "\\/")).
      rewrite (app_assoc (T "= /") u), (consumed_app (T "= /" ++ u)).
      rewrite (app_assoc c (T "/") d), (consumed_app (c ++ T "/")).
      reflexivity.
    + intros [|a w1] s1 Heq Hne Hw1; [congruence|].
      injection Heq as <- ->.
      rewrite newline_free_forallb in Hw1. cbn [newline_free forallb] in Hw1.
      apply andb_prop in Hw1 as [_ Hw1].
      pose proof (line_has_slash_suffix _ _ Hw1 Hd) as Hs1.
      destruct s1 as [|b s1]; [reflexivity|].
      cbn [line_has_slash] in Hs1. cbn [T list_ascii_of_string strip_prefix].
      destruct (Ascii.eqb_spec b NL) as [->|_].
      * reflexivity.
      * apply orb_false_iff in Hs1 as [Hb _].
        change "/"%char with SLASH. now rewrite Ascii.eqb_sym, Hb.
  - intros [|a w1] s1 Heq Hne Hw1; [congruence|].
    cbn [T list_ascii_of_string app] in Heq. injection Heq as <- Heq.
    rewrite newline_free_forallb in Hw1. cbn [newline_free forallb] in Hw1.
    apply andb_prop in Hw1 as [_ Hw1].
    destruct (strip_prefix (T "\\/") s1) as [s2|] eqn:Hs1; [|reflexivity].
    apply strip_prefix_some in Hs1. subst s1.
    apply closing_group_none.
    assert (H2 : line_has_over_escape (T "\\/" ++ s2) = false).
    { apply (line_has_over_escape_suffix w1); [assumption|].
      rewrite <- Heq. exact Hesc. }
    cbn [T list_ascii_of_string app line_has_over_escape] in H2.
    change (Ascii.eqb "\" NL) with false in H2. cbv iota in H2.
    apply orb_false_iff in H2 as [H2 _].
    unfold starts_with in H2. cbn [strip_prefix] in H2.
    rewrite !Ascii.eqb_refl in H2. exact H2.
Qed.

Lemma rule2_nil : rule2 [] = [].
Proof. unfold rule2. now rewrite re_sub_nil. Qed.

(** Text without the second defect is left alone by rule 2. *)
Lemma rule2_clean (s : text) :
  has_regex_defect s = false -> rule2 s = s.
Proof.
  induction s as [|c t IH]; [intros _; apply rule2_nil|].
  cbn [has_regex_defect]. intros H. apply orb_false_iff in H as [Hhere Ht].
  unfold rule2 in *. rewrite re_sub_cons, (re_match_escape_none _ Hhere).
  f_equal. auto.
Qed.

Lemma starts_with_assign_bs (a y : text) :
  starts_with (T "= /") (a ++ BS :: y) = starts_with (T "= /") a.
Proof.
  unfold starts_with.
  destruct a as [|a1 [|a2 [|a3 a]]]; cbn [app T list_ascii_of_string strip_prefix];
    repeat match goal with
           | |- context [Ascii.eqb ?x BS] => change (Ascii.eqb x BS) with false
           | |- context [Ascii.eqb ?x ?y] => is_var y; destruct (Ascii.eqb x y)
           end; reflexivity.
Qed.

Lemma has_assign_app (pre u : text) : has_assign (pre ++ T "= /" ++ u) = true.
Proof.
  induction pre as [|a pre IH]; [reflexivity|].
  cbn [app has_assign]. rewrite IH. apply orb_true_r.
Qed.

Lemma no_slash_no_defect (d : text) :
  newline_free d = true ->
  line_has_slash d = false -> has_regex_defect d = false.
Proof.
  induction d as [|a d IH]; [reflexivity|].
  intros Hnl Hs. cbn [has_regex_defect].
  assert (Hd : has_regex_defect d = false).
  { apply IH.
    - cbn [newline_free forallb] in Hnl. now apply andb_prop in Hnl as [_ ?].
    - now apply (line_has_slash_suffix [a] d); [|exact Hs];
        cbn [newline_free forallb] in *; apply andb_prop in Hnl as [-> _]. }
  rewrite Hd, orb_false_r. unfold regex_defect_here, starts_with.
  destruct (strip_prefix (T "= /") (a :: d)) as [u|] eqn:Hp; [|reflexivity].
  apply strip_prefix_some in Hp. rewrite Hp in Hs. discriminate.
Qed.

Lemma last_slash (b : text) :
  line_has_slash b = true ->
  exists c d, b = c ++ SLASH :: d /\ line_has_slash d = false.
Proof.
  induction b as [|a b IH]; [discriminate|].
  cbn [line_has_slash]. destruct (Ascii.eqb a NL); [discriminate|].
  destruct (line_has_slash b) eqn:Hb.
  - intros _. destruct (IH eq_refl) as (c & d & -> & Hd).
    exists (a :: c), d. auto.
  - rewrite orb_false_r. intros Ha. apply Ascii.eqb_eq in Ha. subst a.
    exists [], b. auto.
Qed.

(** One application of rule 2 to the rest of a line that holds an
    assignment: the over-escaped sequence in front of [c] is the last
    one with a slash behind it, and it is the one repaired. *)
Lemma rule2_repair (c d : text) :
  newline_free c = true ->
  line_has_over_escape (c ++ SLASH :: d) = false ->
  line_has_slash d = false ->
  forall a : text,
    newline_free a = true ->
    has_assign a = true ->
    rule2 (a ++ T "\\/" ++ c ++ SLASH :: d)
    = a ++ T "\/" ++ c ++ SLASH :: rule2 d.
Proof.
  intros Hc Hesc Hd. induction a as [|a1 a IH]; [discriminate|].
  intros Hnl Hasg. pose proof Hnl as Hnl1. cbn [newline_free forallb] in Hnl.
  apply andb_prop in Hnl as [_ Hnl].
  unfold rule2 in *. cbn [app]. rewrite re_sub_cons.
  destruct (strip_prefix (T "= /") (a1 :: a)) as [u|] eqn:Hp.
  - apply strip_prefix_some in Hp.
    rewrite !app_comm_cons, Hp, <- !app_assoc.
    assert (Hu : newline_free u = true).
    { rewrite Hp, newline_free_app in Hnl1. now apply andb_prop in Hnl1 as [_ ?]. }
    rewrite (re_match_escape_some u c d Hu Hc Hesc Hd).
    replace (length d <? length (T "= /" ++ u ++ T "\\/" ++ c ++ SLASH :: d))
      with true.
    + unfold expand, regex_escape_repl. cbn [flat_map group Nat.eqb].
      rewrite app_nil_r, <- !app_assoc. reflexivity.
    + symmetry. apply Nat.ltb_lt. rewrite !length_app. simpl. lia.
  - assert (Hno : regex_defect_here (a1 :: a ++ T "\\/" ++ c ++ SLASH :: d) = false).
    { unfold regex_defect_here.
      change (a1 :: a ++ T "\\/" ++ c ++ SLASH :: d)
        with ((a1 :: a) ++ BS :: BS :: SLASH :: c ++ SLASH :: d).
      rewrite starts_with_assign_bs. unfold starts_with. now rewrite Hp. }
    rewrite (re_match_escape_none _ Hno). f_equal.
    apply IH; [assumption|].
    cbn [has_assign] in Hasg. unfold starts_with in Hasg. now rewrite Hp in Hasg.
Qed.

(** The same for a whole line. *)
Lemma rule2_line (a b : text) :
  newline_free a = true ->
  has_assign a = true ->
  newline_free b = true ->
  line_has_slash b = true ->
  line_has_over_escape b = false ->
  rule2 (a ++ T "\\/" ++ b) = a ++ T "\/" ++ b.
Proof.
  intros Ha Hasg Hb Hs Hesc.
  destruct (last_slash b Hs) as (c & d & -> & Hd).
  rewrite newline_free_app in Hb. apply andb_prop in Hb as [Hc Hd'].
  cbn [newline_free forallb] in Hd'. apply andb_prop in Hd' as [_ Hd'].
  rewrite (rule2_repair c d Hc Hesc Hd a Ha Hasg).
  now rewrite (rule2_clean d (no_slash_no_defect d Hd' Hd)).
Qed.

(** *** Counting over-escaped sequences *)

Lemma over_escaped_here_bs (c : ascii) (s t : text) :
  ends_with_backslash (c :: s) = false ->
  starts_with (T "\\/") ((c :: s) ++ BS :: t) = starts_with (T "\\/") (c :: s).
Proof.
  unfold starts_with.
  destruct s as [|d [|e s]];
    cbn [ends_with_backslash app T list_ascii_of_string strip_prefix].
  - rewrite (Ascii.eqb_sym c BS). change BS with "\"%char.
    intros H. now rewrite H.
  - rewrite (Ascii.eqb_sym d BS). change BS with "\"%char.
    intros H. rewrite H. now destruct (Ascii.eqb "\" c).
  - intros _. destruct (Ascii.eqb "\" c), (Ascii.eqb "\" d), (Ascii.eqb "/" e);
      reflexivity.
Qed.

Lemma over_escapes_app_bs (s t : text) :
  ends_with_backslash s = false ->
  over_escapes (s ++ BS :: t) = over_escapes s + over_escapes (BS :: t).
Proof.
  induction s as [|c s IH]; [reflexivity|].
  intros H. change (over_escapes ((c :: s) ++ BS :: t))
    with ((if starts_with (T "\\/") ((c :: s) ++ BS :: t) then 1 else 0)
          + over_escapes (s ++ BS :: t)).
  rewrite (over_escaped_here_bs c s t H), IH.
  - cbn [over_escapes]. lia.
  - destruct s; [reflexivity|exact H].
Qed.

Lemma over_escapes_broken (s t : text) :
  ends_with_backslash s = false ->
  over_escapes (s ++ T "\\/" ++ t) = over_escapes s + S (over_escapes t).
Proof.
  intros H. change (s ++ T "\\/" ++ t) with (s ++ BS :: BS :: SLASH :: t).
  now rewrite (over_escapes_app_bs s _ H).
Qed.

Lemma over_escapes_repaired (s t : text) :
  ends_with_backslash s = false ->
  over_escapes (s ++ T "\/" ++ t) = over_escapes s + over_escapes t.
Proof.
  intros H. change (s ++ T "\/" ++ t) with (s ++ BS :: SLASH :: t).
  now rewrite (over_escapes_app_bs s _ H).
Qed.

Lemma over_escapes_tail (c : ascii) (s : text) :
  over_escapes (c :: s) = 0 -> over_escapes s = 0.
Proof. cbn [over_escapes]. lia. Qed.

Lemma over_escapes_skipn (n : nat) :
  forall s : text, over_escapes s = 0 -> over_escapes (skipn n s) = 0.
Proof.
  induction n as [|n IH]; intros [|c s] H; try assumption.
  cbn [skipn]. apply IH. now apply over_escapes_tail with c.
Qed.

Lemma over_escapes_none_line (s : text) :
  over_escapes s = 0 -> line_has_over_escape s = false.
Proof.
  induction s as [|c s IH]; [reflexivity|].
  intros H. pose proof (over_escapes_tail _ _ H) as Ht.
  cbn [over_escapes line_has_over_escape] in *.
  destruct (starts_with (T "\\/") (c :: s)); [lia|].
  rewrite (IH Ht). now destruct (Ascii.eqb c NL).
Qed.

Lemma over_escapes_none_defect (s : text) :
  over_escapes s = 0 -> has_regex_defect s = false.
Proof.
  induction s as [|c s IH]; [reflexivity|].
  intros H. cbn [has_regex_defect].
  rewrite (IH (over_escapes_tail _ _ H)), orb_false_r.
  unfold regex_defect_here.
  rewrite (over_escapes_none_line _ (over_escapes_skipn 3 _ H)).
  apply andb_false_r.
Qed.

(* ------------------------------------------------------------------ *)
(** ** What rule 1 leaves alone *)

Lemma word_char_facts (c : ascii) :
  in_set word_set c = true ->
  Ascii.eqb c NL = false /\ Ascii.eqb c SLASH = false /\
  Ascii.eqb c BS = false /\ Ascii.eqb "=" c = false /\
  Ascii.eqb "\" c = false /\ Ascii.eqb "." c = false.
Proof.
  destruct c as [[] [] [] [] [] [] [] []]; cbv; intros H;
    try discriminate H; repeat split.
Qed.

Lemma word_span (q : text) :
  exists w rest,
    q = w ++ rest /\ forallb (in_set word_set) w = true /\
    word_boundary rest = true /\ (word_boundary q = false -> w <> []).
Proof.
  induction q as [|c q (w & rest & -> & Hw & Hb & _)].
  - exists [], []. repeat split. discriminate.
  - destruct (in_set word_set c) eqn:Hc.
    + exists (c :: w), rest. cbn [app forallb]. rewrite Hc, Hw.
      repeat split; [assumption|discriminate].
    + exists [], (c :: w ++ rest). cbn [app forallb word_boundary]. rewrite Hc.
      repeat split. discriminate.
Qed.

Lemma dotted_special_here_exact (s : text) :
  dotted_special_here s = true ->
  exists w rest,
    s = T ".@@" ++ w ++ rest /\ w <> [] /\
    forallb (in_set word_set) w = true /\ word_boundary rest = true.
Proof.
  unfold dotted_special_here.
  destruct (strip_prefix (T ".@@") s) as [q|] eqn:Hs; [|discriminate].
  apply strip_prefix_some in Hs. subst s. intros Hq.
  destruct (word_span q) as (w & rest & -> & Hw & Hb & Hne).
  exists w, rest. repeat split; try assumption.
  apply Hne. destruct (w ++ rest) as [|d ?]; [discriminate|].
  cbn [word_boundary]. now rewrite Hq.
Qed.

Lemma rule1_no_match (c : ascii) (t : text) :
  dotted_special_here (c :: t) = false -> rule1 (c :: t) = c :: rule1 t.
Proof.
  intros H. unfold rule1. now rewrite re_sub_cons, (re_match_dotted_none _ H).
Qed.

(** Rule 1 computes its graph. *)
Lemma rule1_graph_rule1 :
  forall (n : nat) (s : text), length s <= n -> rule1_graph s (rule1 s).
Proof.
  induction n as [|n IH]; intros s Hlen.
  - destruct s; [rewrite rule1_nil; constructor|simpl in Hlen; lia].
  - destruct s as [|c t]; [rewrite rule1_nil; constructor|].
    destruct (dotted_special_here (c :: t)) eqn:Hhere.
    + destruct (dotted_special_here_exact _ Hhere) as (w & rest & Hs & Hne & Hw & Hb).
      rewrite Hs.
      replace (T ".@@" ++ w ++ rest) with ([] ++ T ".@@" ++ w ++ rest) at 2
        by reflexivity.
      rewrite (rule1_occurrence [] w rest Hne Hw Hb), rule1_nil.
      apply rule1_replace; try assumption.
      apply IH. rewrite Hs in Hlen. rewrite !length_app in Hlen. simpl in Hlen. lia.
    + rewrite (rule1_no_match c t Hhere). apply rule1_copy; [assumption|].
      apply IH. simpl in Hlen. lia.
Qed.

Lemma rule1_graph_nil (t' : text) : rule1_graph [] t' -> t' = [].
Proof.
  intros H. now inversion H.
Qed.

Lemma rule1_graph_nonempty (t t' : text) :
  rule1_graph t t' -> t <> [] -> t' <> [].
Proof. intros H. destruct H; intros Hne; try discriminate. congruence. Qed.

(** Stripping a prefix that rule 1 cannot touch commutes with rule 1. *)
Lemma rule1_graph_strip (p : text) :
  inert p = true ->
  forall t t' : text,
    rule1_graph t t' ->
    match strip_prefix p t, strip_prefix p t' with
    | Some r, Some r' => rule1_graph r r'
    | None, None => True
    | _, _ => False
    end.
Proof.
  induction p as [|a p IH]; intros Hp t t' H; [exact H|].
  cbn [inert forallb] in Hp. apply andb_prop in Hp as [Ha Hp].
  apply andb_prop in Ha as [Hdot Hbr].
  apply negb_true_iff in Hdot, Hbr.
  destruct H as [|c t t' Hhere H|w rest rest' Hne Hw Hb H].
  - exact I.
  - cbn [strip_prefix]. destruct (Ascii.eqb a c); [|exact I].
    now apply IH.
  - cbn [T list_ascii_of_string app strip_prefix].
    now rewrite Hdot, Hbr.
Qed.

Lemma rule1_graph_starts_with (p t t' : text) :
  inert p = true -> rule1_graph t t' ->
  starts_with p t' = starts_with p t.
Proof.
  intros Hp H. unfold starts_with.
  pose proof (rule1_graph_strip p Hp t t' H) as HS.
  destruct (strip_prefix p t), (strip_prefix p t'); tauto.
Qed.

Lemma rule1_graph_boundary (t t' : text) :
  rule1_graph t t' -> word_boundary t' = word_boundary t.
Proof. intros H. destruct H; reflexivity. Qed.

(** Skipping identifier characters. *)
Lemma skip_word_newline_free (w : text) :
  forallb (in_set word_set) w = true -> newline_free w = true.
Proof. apply in_set_newline_free. reflexivity. Qed.

Lemma skip_word_slash (w y : text) :
  forallb (in_set word_set) w = true ->
  line_has_slash (w ++ y) = line_has_slash y.
Proof.
  induction w as [|c w IH]; [reflexivity|].
  cbn [forallb app line_has_slash]. intros H. apply andb_prop in H as [Hc Hw].
  destruct (word_char_facts c Hc) as (-> & -> & _). now apply IH.
Qed.

Lemma skip_word_assign (w y : text) :
  forallb (in_set word_set) w = true ->
  has_assign (w ++ y) = has_assign y.
Proof.
  induction w as [|c w IH]; [reflexivity|].
  cbn [forallb app has_assign]. intros H. apply andb_prop in H as [Hc Hw].
  destruct (word_char_facts c Hc) as (_ & _ & _ & He & _).
  unfold starts_with at 1. cbn [T list_ascii_of_string strip_prefix].
  rewrite He. now apply IH.
Qed.

Lemma skip_word_over_escapes (w y : text) :
  forallb (in_set word_set) w = true ->
  over_escapes (w ++ y) = over_escapes y.
Proof.
  induction w as [|c w IH]; [reflexivity|].
  cbn [forallb app over_escapes]. intros H. apply andb_prop in H as [Hc Hw].
  destruct (word_char_facts c Hc) as (_ & _ & _ & _ & He & _).
  unfold starts_with at 1. cbn [T list_ascii_of_string strip_prefix].
  rewrite He. now apply IH.
Qed.

Lemma skip_word_over_escape (w y : text) :
  forallb (in_set word_set) w = true ->
  line_has_over_escape (w ++ y) = line_has_over_escape y.
Proof.
  induction w as [|c w IH]; [reflexivity|].
  cbn [forallb app line_has_over_escape]. intros H. apply andb_prop in H as [Hc Hw].
  destruct (word_char_facts c Hc) as (-> & _ & _ & _ & He & _).
  unfold starts_with at 1. cbn [T list_ascii_of_string strip_prefix].
  rewrite He. now apply IH.
Qed.

Lemma skip_word_dotted (w y : text) :
  forallb (in_set word_set) w = true ->
  has_dotted_special (w ++ y) = has_dotted_special y.
Proof.
  induction w as [|c w IH]; [reflexivity|].
  cbn [forallb app has_dotted_special]. intros H. apply andb_prop in H as [Hc Hw].
  destruct (word_char_facts c Hc) as (_ & _ & _ & _ & _ & He).
  unfold dotted_special_here at 1. cbn [T list_ascii_of_string strip_prefix].
  rewrite He. now apply IH.
Qed.

Lemma ends_with_backslash_app (u y : text) :
  y <> [] -> ends_with_backslash (u ++ y) = ends_with_backslash y.
Proof.
  intros Hy. induction u as [|c u IH]; [reflexivity|].
  cbn [app ends_with_backslash]. rewrite IH.
  destruct (u ++ y) eqn:E; [|reflexivity].
  apply app_eq_nil in E as [_ E]. congruence.
Qed.

Lemma ends_with_backslash_word (u w : text) :
  w <> [] -> forallb (in_set word_set) w = true ->
  ends_with_backslash (u ++ w) = false.
Proof.
  intros Hne Hw. rewrite (ends_with_backslash_app u w Hne).
  induction w as [|c w IH]; [congruence|].
  cbn [forallb] in Hw. apply andb_prop in Hw as [Hc Hw].
  cbn [ends_with_backslash]. destruct w as [|d w].
  - now destruct (word_char_facts c Hc) as (_ & _ & -> & _).
  - apply IH; [discriminate|assumption].
Qed.

(** What the scan of rule 1 preserves. *)
Lemma rule1_graph_newline_free (t t' : text) :
  rule1_graph t t' -> newline_free t' = newline_free t.
Proof.
  induction 1 as [|c t t' Hhere H IH|w rest rest' Hne Hw Hb H IH].
  - reflexivity.
  - unfold newline_free in *. cbn [forallb]. now rewrite IH.
  - rewrite !newline_free_app, IH, (skip_word_newline_free w Hw). reflexivity.
Qed.

Lemma rule1_graph_slash (t t' : text) :
  rule1_graph t t' -> line_has_slash t' = line_has_slash t.
Proof.
  induction 1 as [|c t t' Hhere H IH|w rest rest' Hne Hw Hb H IH].
  - reflexivity.
  - cbn [line_has_slash]. now rewrite IH.
  - change (line_has_slash (T ".@@" ++ w ++ rest))
      with (line_has_slash (w ++ rest)).
    change (line_has_slash (T "[`" ++ T "@@" ++ w ++ T "`]" ++ rest'))
      with (line_has_slash (w ++ T "`]" ++ rest')).
    rewrite (skip_word_slash w (T "`]" ++ rest') Hw), (skip_word_slash w rest Hw).
    exact IH.
Qed.

Lemma rule1_graph_assign (t t' : text) :
  rule1_graph t t' -> has_assign t' = has_assign t.
Proof.
  induction 1 as [|c t t' Hhere H IH|w rest rest' Hne Hw Hb H IH].
  - reflexivity.
  - cbn [has_assign]. rewrite IH. f_equal.
    apply rule1_graph_starts_with; [reflexivity|now apply rule1_copy].
  - change (has_assign (T ".@@" ++ w ++ rest)) with (has_assign (w ++ rest)).
    change (has_assign (T "[`" ++ T "@@" ++ w ++ T "`]" ++ rest'))
      with (has_assign (w ++ T "`]" ++ rest')).
    rewrite (skip_word_assign w (T "`]" ++ rest') Hw), (skip_word_assign w rest Hw).
    exact IH.
Qed.

Lemma rule1_graph_over_escapes (t t' : text) :
  rule1_graph t t' -> over_escapes t' = over_escapes t.
Proof.
  induction 1 as [|c t t' Hhere H IH|w rest rest' Hne Hw Hb H IH].
  - reflexivity.
  - cbn [over_escapes]. rewrite IH. f_equal.
    rewrite (rule1_graph_starts_with (T "\\/") (c :: t) (c :: t') eq_refl);
      [reflexivity|now apply rule1_copy].
  - change (over_escapes (T ".@@" ++ w ++ rest)) with (over_escapes (w ++ rest)).
    change (over_escapes (T "[`" ++ T "@@" ++ w ++ T "`]" ++ rest'))
      with (over_escapes (w ++ T "`]" ++ rest')).
    rewrite (skip_word_over_escapes w (T "`]" ++ rest') Hw), (skip_word_over_escapes w rest Hw).
    exact IH.
Qed.

Lemma over_escape_here_strip (s : text) :
  starts_with (T "\\/") s && line_has_slash (skipn 3 s)
  = match strip_prefix (T "\\/") s with
    | Some r => line_has_slash r
    | None => false
    end.
Proof.
  unfold starts_with. destruct (strip_prefix (T "\\/") s) as [r|] eqn:E;
    [|reflexivity].
  apply strip_prefix_some in E. now subst s.
Qed.

Lemma rule1_graph_over_escape (t t' : text) :
  rule1_graph t t' -> line_has_over_escape t' = line_has_over_escape t.
Proof.
  induction 1 as [|c t t' Hhere H IH|w rest rest' Hne Hw Hb H IH].
  - reflexivity.
  - cbn [line_has_over_escape]. rewrite IH, !over_escape_here_strip.
    pose proof (rule1_graph_strip (T "\\/") eq_refl (c :: t) (c :: t')
                                  (rule1_copy c t t' Hhere H)) as HS.
    destruct (strip_prefix (T "\\/") (c :: t)) as [r|],
             (strip_prefix (T "\\/") (c :: t')) as [r'|]; try tauto.
    now rewrite (rule1_graph_slash _ _ HS).
  - change (line_has_over_escape (T ".@@" ++ w ++ rest))
      with (line_has_over_escape (w ++ rest)).
    change (line_has_over_escape (T "[`" ++ T "@@" ++ w ++ T "`]" ++ rest'))
      with (line_has_over_escape (w ++ T "`]" ++ rest')).
    rewrite (skip_word_over_escape w (T "`]" ++ rest') Hw), (skip_word_over_escape w rest Hw).
    exact IH.
Qed.

Lemma rule1_graph_ends (t t' : text) :
  rule1_graph t t' -> ends_with_backslash t' = ends_with_backslash t.
Proof.
  induction 1 as [|c t t' Hhere H IH|w rest rest' Hne Hw Hb H IH].
  - reflexivity.
  - destruct t as [|d t].
    + apply rule1_graph_nil in H. now subst t'.
    + pose proof (rule1_graph_nonempty _ _ H) as Hn.
      destruct t' as [|d' t']; [exfalso; apply Hn; [discriminate|reflexivity]|].
      exact IH.
  - destruct rest as [|d rest].
    + apply rule1_graph_nil in H. subst rest'. rewrite !app_nil_r.
      rewrite (ends_with_backslash_word (T ".@@") w Hne Hw).
      rewrite (app_assoc (T "[`")), (app_assoc _ w).
      now rewrite ends_with_backslash_app by discriminate.
    + pose proof (rule1_graph_nonempty _ _ H) as Hn.
      rewrite (app_assoc (T ".@@")), (ends_with_backslash_app _ (d :: rest))
        by discriminate.
      rewrite (app_assoc (T "[`")), (app_assoc _ w), (app_assoc _ (T "`]")).
      rewrite (ends_with_backslash_app _ rest') by (apply Hn; discriminate).
      exact IH.
Qed.

(** What rule 1 returns holds no dotted special identifier. *)
Lemma rule1_graph_clean (t t' : text) :
  rule1_graph t t' -> has_dotted_special t' = false.
Proof.
  induction 1 as [|c t t' Hhere H IH|w rest rest' Hne Hw Hb H IH].
  - reflexivity.
  - cbn [has_dotted_special]. rewrite IH, orb_false_r.
    unfold dotted_special_here in *.
    change (T ".@@") with (T "." ++ T "@@") in *.
    rewrite strip_prefix_split in *.
    change (strip_prefix (T ".") (c :: t'))
      with (if Ascii.eqb "." c then Some t' else None).
    change (strip_prefix (T ".") (c :: t))
      with (if Ascii.eqb "." c then Some t else None) in Hhere.
    destruct (Ascii.eqb "." c); [|reflexivity].
    pose proof (rule1_graph_strip (T "@@") eq_refl t t' H) as HS.
    destruct (strip_prefix (T "@@") t) as [r|],
             (strip_prefix (T "@@") t') as [r'|]; try tauto.
    pose proof (rule1_graph_boundary _ _ HS) as Hbd.
    destruct r as [|d r], r' as [|d' r']; try reflexivity;
      cbn [word_boundary] in Hbd; try rewrite Hhere in Hbd;
      now destruct (in_set word_set d').
  - change (has_dotted_special (T "[`" ++ T "@@" ++ w ++ T "`]" ++ rest'))
      with (has_dotted_special (w ++ T "`]" ++ rest')).
    rewrite (skip_word_dotted w (T "`]" ++ rest') Hw). exact IH.
Qed.

(** The same facts for rule 1 itself. *)
Lemma rule1_graph_of (t : text) : rule1_graph t (rule1 t).
Proof. exact (rule1_graph_rule1 (length t) t (le_n _)). Qed.

Lemma rule1_idempotent (t : text) : rule1 (rule1 t) = rule1 t.
Proof. apply rule1_clean. exact (rule1_graph_clean _ _ (rule1_graph_of t)). Qed.

Lemma rule1_over_escaped (a b : text) :
  rule1 (a ++ T "\\/" ++ b) = rule1 a ++ T "\\/" ++ rule1 b.
Proof.
  change (a ++ T "\\/" ++ b) with (a ++ BS :: BS :: SLASH :: b).
  rewrite (rule1_barrier BS (BS :: SLASH :: b) a eq_refl eq_refl).
  now rewrite !rule1_no_match by reflexivity.
Qed.

Lemma rule1_repaired (a b : text) :
  rule1 (a ++ T "\/" ++ b) = rule1 a ++ T "\/" ++ rule1 b.
Proof.
  change (a ++ T "\/" ++ b) with (a ++ BS :: SLASH :: b).
  rewrite (rule1_barrier BS (SLASH :: b) a eq_refl eq_refl).
  now rewrite !rule1_no_match by reflexivity.
Qed.

(* ------------------------------------------------------------------ *)
(** ** Passes *)

Lemma one_pass_clean (s : text) :
  has_dotted_special s = false ->
  has_regex_defect s = false ->
  one_pass s = s.
Proof.
  intros H1 H2. unfold one_pass. now rewrite (rule1_clean s H1), (rule2_clean s H2).
Qed.

Lemma one_pass_newlines (s : text) : newlines (one_pass s) = newlines s.
Proof.
  unfold one_pass, rule2, rule1, re_sub.
  now rewrite !sub_loop_newlines.
Qed.

Lemma line_has_slash_prefix (w b : text) :
  newline_free w = true ->
  line_has_slash b = true -> line_has_slash (w ++ b) = true.
Proof.
  intros Hw Hb. destruct (line_has_slash (w ++ b)) eqn:H; [reflexivity|].
  apply (line_has_slash_suffix _ _ Hw) in H. congruence.
Qed.

(** One pass over a line whose last repairable over-escaped sequence
    sits between [a] and [b]: the sequence is repaired, and the rest of
    the line is what rule 1 makes of it. *)
Lemma one_pass_line (a b : text) :
  newline_free a = true ->
  has_assign a = true ->
  newline_free b = true ->
  line_has_slash b = true ->
  line_has_over_escape b = false ->
  one_pass (a ++ T "\\/" ++ b) = rule1 a ++ T "\/" ++ rule1 b.
Proof.
  intros Ha Hasg Hb Hs Hesc. unfold one_pass.
  rewrite rule1_over_escaped. apply rule2_line.
  - now rewrite (rule1_graph_newline_free _ _ (rule1_graph_of a)).
  - now rewrite (rule1_graph_assign _ _ (rule1_graph_of a)).
  - now rewrite (rule1_graph_newline_free _ _ (rule1_graph_of b)).
  - now rewrite (rule1_graph_slash _ _ (rule1_graph_of b)).
  - now rewrite (rule1_graph_over_escape _ _ (rule1_graph_of b)).
Qed.

Lemma has_assign_app_bs (a y : text) :
  has_assign a = true -> has_assign (a ++ BS :: y) = true.
Proof.
  induction a as [|c a IH]; [discriminate|].
  cbn [app has_assign].
  change (c :: a ++ BS :: y) with ((c :: a) ++ BS :: y).
  rewrite starts_with_assign_bs.
  destruct (starts_with (T "= /") (c :: a)); [reflexivity|]. exact IH.
Qed.

(** The passes over a line with two over-escaped sequences. *)
Lemma two_defects_passes (a v b : text) :
  newline_free a = true -> newline_free v = true -> newline_free b = true ->
  has_assign a = true ->
  line_has_slash b = true ->
  over_escapes v = 0 -> over_escapes b = 0 ->
  ends_with_backslash v = false ->
  one_pass (a ++ T "\\/" ++ v ++ T "\\/" ++ b)
    = rule1 a ++ T "\\/" ++ rule1 v ++ T "\/" ++ rule1 b /\
  one_pass (rule1 a ++ T "\\/" ++ rule1 v ++ T "\/" ++ rule1 b)
    = rule1 a ++ T "\/" ++ rule1 v ++ T "\/" ++ rule1 b.
Proof.
  intros Ha Hv Hb Hasg Hs Ov Ob Ev. split.
  - replace (a ++ T "\\/" ++ v ++ T "\\/" ++ b)
      with ((a ++ T "\\/" ++ v) ++ T "\\/" ++ b)
      by (now rewrite <- !app_assoc).
    rewrite one_pass_line.
    + now rewrite rule1_over_escaped, <- !app_assoc.
    + rewrite !newline_free_app, Ha, Hv. reflexivity.
    + now apply (has_assign_app_bs a (BS :: SLASH :: v)).
    + exact Hb.
    + exact Hs.
    + now apply over_escapes_none_line.
  - rewrite one_pass_line.
    + now rewrite rule1_repaired, !rule1_idempotent.
    + now rewrite (rule1_graph_newline_free _ _ (rule1_graph_of a)).
    + now rewrite (rule1_graph_assign _ _ (rule1_graph_of a)).
    + rewrite !newline_free_app,
        (rule1_graph_newline_free _ _ (rule1_graph_of v)),
        (rule1_graph_newline_free _ _ (rule1_graph_of b)), Hv, Hb.
      reflexivity.
    + apply line_has_slash_prefix.
      * now rewrite (rule1_graph_newline_free _ _ (rule1_graph_of v)).
      * reflexivity.
    + apply over_escapes_none_line. rewrite over_escapes_repaired.
      * rewrite !(rule1_graph_over_escapes _ _ (rule1_graph_of _)). lia.
      * now rewrite (rule1_graph_ends _ _ (rule1_graph_of v)).
Qed.

(** A line whose over-escaped sequences are all repaired is a fixed
    point of the pass. *)
Lemma repaired_line_fixed (a v b : text) :
  over_escapes a = 0 -> over_escapes v = 0 -> over_escapes b = 0 ->
  ends_with_backslash a = false ->
  ends_with_backslash v = false ->
  one_pass (rule1 a ++ T "\/" ++ rule1 v ++ T "\/" ++ rule1 b)
  = rule1 a ++ T "\/" ++ rule1 v ++ T "\/" ++ rule1 b.
Proof.
  intros Oa Ov Ob Ea Ev. unfold one_pass.
  rewrite !rule1_repaired, !rule1_idempotent.
  apply rule2_clean, over_escapes_none_defect.
  rewrite !over_escapes_repaired,
    !(rule1_graph_over_escapes _ _ (rule1_graph_of _));
    rewrite ?(rule1_graph_ends _ _ (rule1_graph_of _)); try assumption.
  lia.
Qed.

(** *** Line by line *)

Lemma rule1_lines (p q : text) : rule1 (p ++ NL :: q) = rule1 p ++ NL :: rule1 q.
Proof. apply re_sub_lines; reflexivity. Qed.

Lemma rule2_lines (p q : text) : rule2 (p ++ NL :: q) = rule2 p ++ NL :: rule2 q.
Proof. apply re_sub_lines; reflexivity. Qed.

Lemma one_pass_lines (p q : text) :
  one_pass (p ++ NL :: q) = one_pass p ++ NL :: one_pass q.
Proof. unfold one_pass. now rewrite rule1_lines, rule2_lines. Qed.

Lemma apply_replacements_lines (p q : text) (n : Z) :
  apply_replacements (p ++ NL :: q) n
  = apply_replacements p n ++ NL :: apply_replacements q n.
Proof.
  rewrite !apply_replacements_iter.
  induction (Z.to_nat n) as [|m IH]; [reflexivity|].
  change (Nat.iter (S m) one_pass ?x) with (one_pass (Nat.iter m one_pass x)).
  now rewrite IH, one_pass_lines.
Qed.

Lemma apply_replacements_nil (n : Z) : apply_replacements [] n = [].
Proof.
  rewrite apply_replacements_iter. apply iter_fixed.
  now apply one_pass_clean.
Qed.

(** A function that works line by line treats a line the same way
    wherever it stands in the text. *)
Lemma linewise_in_context (f : text -> text) :
  f [] = [] ->
  (forall p q, f (p ++ NL :: q) = f p ++ NL :: f q) ->
  forall pre line post : text,
    at_line_start pre = true ->
    at_line_end post = true ->
    f (pre ++ line ++ post) = f pre ++ f line ++ f post.
Proof.
  intros Hnil Hlines pre line post Hpre Hpost.
  assert (Hright : f (line ++ post) = f line ++ f post).
  { destruct post as [|c post].
    - now rewrite Hnil, !app_nil_r.
    - cbn [at_line_end] in Hpost. apply Ascii.eqb_eq in Hpost. subst c.
      rewrite Hlines. change (f (NL :: post)) with (f ([] ++ NL :: post)).
      now rewrite (Hlines [] post), Hnil. }
  unfold at_line_start in Hpre.
  destruct (rev pre) as [|c r] eqn:E.
  - apply (f_equal (@rev ascii)) in E. rewrite rev_involutive in E.
    cbn [rev] in E. subst pre. cbn [app]. now rewrite Hnil.
  - apply Ascii.eqb_eq in Hpre. subst c.
    apply (f_equal (@rev ascii)) in E. rewrite rev_involutive in E.
    cbn [rev] in E. subst pre. rewrite <- !app_assoc. cbn [app].
    rewrite !Hlines, Hright, Hnil, <- app_assoc. reflexivity.
Qed.

(* ------------------------------------------------------------------ *)
(** ** The main block *)

Lemma string_length_append (a b : string) :
  String.length (String.append a b) = String.length a + String.length b.
Proof.
  induction a as [|c a IH]; [reflexivity|]. cbn. now rewrite IH.
Qed.

Lemma append_ext_differs (f : string) :
  String.append f DEFAULT_APPEND_OUTPUT_EXT <> f.
Proof.
  intros E. apply (f_equal String.length) in E.
  rewrite string_length_append in E. cbn in E. lia.
Qed.

Lemma lookup_bound (fs : filesystem) (p : string) (id : file_id) :
  well_formed fs = true ->
  lookup (names fs) p = Some id -> id < fresh fs.
Proof.
  unfold well_formed. induction (names fs) as [|[q i] tbl IH]; [discriminate|].
  cbn [forallb lookup snd]. intros H. apply andb_prop in H as [Hi Htbl].
  destruct (String.eqb q p).
  - intros [= <-]. now apply Nat.ltb_lt.
  - now apply IH.
Qed.

(** What a successful [open(path, 'w')] leaves. *)
Lemma open_w_some (fs fs1 : filesystem) (path : string) (f : file_id) :
  open_w fs path = Some (f, fs1) ->
  can_open_w fs path = true /\
  write_limit fs1 = write_limit fs /\
  lookup (names fs1) path = Some f /\
  store fs1 f = [] /\
  (forall i, i <> f -> store fs1 i = store fs i) /\
  (forall id, lookup (names fs) path = Some id ->
              f = id /\ names fs1 = names fs) /\
  (lookup (names fs) path = None ->
   f = fresh fs /\ names fs1 = (path, f) :: names fs).
Proof.
  unfold open_w. destruct (can_open_w fs path); [|discriminate].
  destruct (lookup (names fs) path) as [id|] eqn:E; intros [= <- <-];
    cbn [names store write_limit set_text lookup].
  - rewrite E, Nat.eqb_refl.
    do 4 (split; [reflexivity|]). split; [|split].
    + intros i Hi. apply Nat.eqb_neq in Hi. now rewrite Hi.
    + intros j [= <-]. now split.
    + discriminate.
  - rewrite String.eqb_refl, Nat.eqb_refl.
    do 4 (split; [reflexivity|]). split; [|split].
    + intros i Hi. apply Nat.eqb_neq in Hi. now rewrite Hi.
    + discriminate.
    + intros _. now split.
Qed.

Lemma open_w_none (fs : filesystem) (path : string) :
  open_w fs path = None <-> can_open_w fs path = false.
Proof.
  unfold open_w. destruct (can_open_w fs path); [|tauto].
  destruct (lookup (names fs) path); split; discriminate.
Qed.

Lemma main_unfold (args : Namespace) (fs : filesystem) :
  main args fs
  = match read_text fs (file args) with
    | None => (1%Z, fs)
    | Some data =>
        match open_w fs (output_path args) with
        | None => (1%Z, fs)
        | Some (f, fs1) =>
            match write_limit fs (output_path args) with
            | None =>
                (0%Z, set_text fs1 f
                               (apply_replacements data (iterations args)))
            | Some k =>
                (1%Z, set_text fs1 f
                               (firstn k (apply_replacements data
                                                             (iterations args))))
            end
        end
    end.
Proof.
  unfold main, fix_react_native_hermes_decompilation.
  fold (output_path args).
  destruct (read_text fs (file args)) as [data|]; [|reflexivity].
  destruct (open_w fs (output_path args)) as [[f fs1]|] eqn:E; [|reflexivity].
  destruct (open_w_some _ _ _ _ E) as (_ & Hlim & _).
  unfold write_text. rewrite Hlim.
  now destruct (write_limit fs (output_path args)).
Qed.

Lemma store_set_text (fs : filesystem) (f : file_id) (data : text) :
  store (set_text fs f data) f = data /\
  forall i, i <> f -> store (set_text fs f data) i = store fs i.
Proof.
  cbn [store set_text]. rewrite Nat.eqb_refl. split; [reflexivity|].
  intros i Hi. apply Nat.eqb_neq in Hi. now rewrite Hi.
Qed.

(** Every way the main block can end. *)
Lemma main_cases (args : Namespace) (fs : filesystem) :
  (read_text fs (file args) = None /\ main args fs = (1%Z, fs)) \/
  (exists data,
      read_text fs (file args) = Some data /\
      can_open_w fs (output_path args) = false /\
      main args fs = (1%Z, fs)) \/
  (exists data f fs1,
      read_text fs (file args) = Some data /\
      open_w fs (output_path args) = Some (f, fs1) /\
      ((write_limit fs (output_path args) = None /\
        main args fs
        = (0%Z, set_text fs1 f (apply_replacements data (iterations args)))) \/
       (exists k,
           write_limit fs (output_path args) = Some k /\
           main args fs
           = (1%Z, set_text fs1 f
                            (firstn k (apply_replacements data
                                                          (iterations args))))))).
Proof.
  rewrite main_unfold.
  destruct (read_text fs (file args)) as [data|]; [|now left].
  right. destruct (open_w fs (output_path args)) as [[f fs1]|] eqn:E.
  - right. exists data, f, fs1. split; [reflexivity|]. split; [reflexivity|].
    destruct (write_limit fs (output_path args)) as [k|]; [right|left].
    + exists k. now split.
    + now split.
  - left. exists data. split; [reflexivity|]. split; [|reflexivity].
    now apply open_w_none.
Qed.

(* ------------------------------------------------------------------ *)
(** ** Properties of the specification *)

(** C1.  For every text and every natural number [n], the loop of the
    script returns the [n]-fold composition of one pass, where a pass
    is rule 1 on the whole text followed by rule 2 on rule 1's output.
    Pass [n + 1] is applied to whatever pass [n] returned, without any
    test of whether the text still changes. *)
Theorem apply_replacements_n_passes :
  forall (data : text) (n : nat),
    apply_replacements data (Z.of_nat n) = rewrite_spec data n /\
    apply_replacements data (Z.of_nat (S n))
    = rule2 (rule1 (apply_replacements data (Z.of_nat n))).
Proof.
  intros data n. rewrite !apply_replacements_iter, !Nat2Z.id. split; reflexivity.
Qed.

(** C2, as the specification states it, fails: on a line with two
    over-escaped sequences rule 2 does not repair the leftmost one. *)
Lemma rule2_not_leftmost :
  rule2 (T "x = /a\\/b\\/c/;") = T "x = /a\\/b\/c/;" /\
  repair_leftmost (T "x = /a\\/b\\/c/;") = T "x = /a\/b\\/c/;" /\
  rule2 (T "x = /a\\/b\\/c/;") <> repair_leftmost (T "x = /a\\/b\\/c/;").
Proof.
  assert (H1 : rule2 (T "x = /a\\/b\\/c/;") = T "x = /a\\/b\/c/;")
    by (vm_compute; reflexivity).
  assert (H2 : repair_leftmost (T "x = /a\\/b\\/c/;") = T "x = /a\/b\\/c/;")
    by (vm_compute; reflexivity).
  repeat split; try assumption.
  rewrite H1, H2. discriminate.
Qed.

(** C2, amended.  When a line holds several over-escaped sequences
    behind an assignment, one application of rule 2 repairs exactly
    one of them: the rightmost one that still has a slash to its right
    on the line.  Everything to its left, the other over-escaped
    sequences included, is left for later passes.  This holds for the
    line wherever it stands in the text. *)
Theorem rule2_repairs_rightmost :
  forall before after pre u v b : text,
    at_line_start before = true ->
    at_line_end after = true ->
    newline_free (pre ++ u ++ v ++ b) = true ->
    line_has_slash b = true ->
    line_has_over_escape b = false ->
    rule2 (before
             ++ (pre ++ T "= /" ++ u ++ T "\\/" ++ v ++ T "\\/" ++ b)
             ++ after)
    = rule2 before
        ++ (pre ++ T "= /" ++ u ++ T "\\/" ++ v ++ T "\/" ++ b)
        ++ rule2 after.
Proof.
  intros before after pre u v b Hbefore Hafter Hnl Hs Hesc.
  rewrite (linewise_in_context rule2 rule2_nil rule2_lines _ _ _ Hbefore Hafter).
  do 2 f_equal.
  rewrite !newline_free_app in Hnl.
  apply andb_prop in Hnl as [Hpre Hnl]. apply andb_prop in Hnl as [Hu Hnl].
  apply andb_prop in Hnl as [Hv Hb].
  replace (pre ++ T "= /" ++ u ++ T "\\/" ++ v ++ T "\\/" ++ b)
    with ((pre ++ T "= /" ++ u ++ T "\\/" ++ v) ++ T "\\/" ++ b)
    by (now rewrite <- !app_assoc).
  rewrite rule2_line; auto.
  - now rewrite <- !app_assoc.
  - rewrite !newline_free_app, Hpre, Hu, Hv. reflexivity.
  - apply has_assign_app.
Qed.

Lemma rule2_repairs_rightmost_witness :
  rule2 (T "// regexes" ++ [NL]
           ++ (T "x " ++ T "= /" ++ T "a" ++ T "\\/" ++ T "b" ++ T "\\/" ++ T "c/;")
           ++ [NL] ++ T "y = 1;")
  = rule2 (T "// regexes" ++ [NL])
      ++ (T "x " ++ T "= /" ++ T "a" ++ T "\\/" ++ T "b" ++ T "\/" ++ T "c/;")
      ++ rule2 ([NL] ++ T "y = 1;").
Proof.
  apply (rule2_repairs_rightmost (T "// regexes" ++ [NL]) ([NL] ++ T "y = 1;")
                                 (T "x ") (T "a") (T "b") (T "c/;"));
    reflexivity.
Defined.

(** C3, as the specification states it, fails: this line holds exactly
    two over-escaped sequences behind its assignment, and after two
    iterations one is still there, because the repair of a sequence that
    follows a backslash leaves a new one behind. *)
Lemma two_iterations_not_enough :
  over_escapes (T "x = /a\\\/b\\/c/;") = 2 /\
  apply_replacements (T "x = /a\\\/b\\/c/;") 2 = T "x = /a\\/b\/c/;" /\
  over_escapes (apply_replacements (T "x = /a\\\/b\\/c/;") 2) <> 0.
Proof.
  assert (H : apply_replacements (T "x = /a\\\/b\\/c/;") 2 = T "x = /a\\/b\/c/;")
    by (vm_compute; reflexivity).
  rewrite H. repeat split. discriminate.
Qed.

(** C3, amended.  Take a line with exactly two over-escaped sequences
    behind an assignment ([a] holds the assignment, [b] a slash, none
    of [a], [v], [b] holds a further sequence), neither sequence
    directly behind a backslash.  One iteration repairs the right
    sequence and leaves exactly one, the left one; every number of
    iterations from two on repairs both.  The rest of the line is what
    rule 1 makes of it, and the line may stand anywhere in the text. *)
Theorem two_defects_need_two_iterations :
  forall before after a v b : text,
    at_line_start before = true ->
    at_line_end after = true ->
    newline_free (a ++ v ++ b) = true ->
    has_assign a = true ->
    line_has_slash b = true ->
    over_escapes a = 0 -> over_escapes v = 0 -> over_escapes b = 0 ->
    ends_with_backslash a = false ->
    ends_with_backslash v = false ->
    over_escapes (a ++ T "\\/" ++ v ++ T "\\/" ++ b) = 2 /\
    (apply_replacements
       (before ++ (a ++ T "\\/" ++ v ++ T "\\/" ++ b) ++ after) 1
     = apply_replacements before 1
         ++ (rule1 a ++ T "\\/" ++ rule1 v ++ T "\/" ++ rule1 b)
         ++ apply_replacements after 1 /\
     over_escapes (rule1 a ++ T "\\/" ++ rule1 v ++ T "\/" ++ rule1 b) = 1) /\
    forall n : Z,
      (2 <= n)%Z ->
      apply_replacements
        (before ++ (a ++ T "\\/" ++ v ++ T "\\/" ++ b) ++ after) n
      = apply_replacements before n
          ++ (rule1 a ++ T "\/" ++ rule1 v ++ T "\/" ++ rule1 b)
          ++ apply_replacements after n /\
      over_escapes (rule1 a ++ T "\/" ++ rule1 v ++ T "\/" ++ rule1 b) = 0.
Proof.
  intros before after a v b Hbefore Hafter Hnl Hasg Hs Oa Ov Ob Ea Ev.
  rewrite !newline_free_app in Hnl.
  apply andb_prop in Hnl as [Ha Hnl]. apply andb_prop in Hnl as [Hv Hb].
  destruct (two_defects_passes a v b Ha Hv Hb Hasg Hs Ov Ob Ev) as (P1 & P2).
  pose proof (repaired_line_fixed a v b Oa Ov Ob Ea Ev) as P3.
  pose proof (rule1_graph_over_escapes _ _ (rule1_graph_of a)) as Oa'.
  pose proof (rule1_graph_over_escapes _ _ (rule1_graph_of v)) as Ov'.
  pose proof (rule1_graph_over_escapes _ _ (rule1_graph_of b)) as Ob'.
  pose proof (rule1_graph_ends _ _ (rule1_graph_of a)) as Ea'.
  pose proof (rule1_graph_ends _ _ (rule1_graph_of v)) as Ev'.
  rewrite Ea in Ea'. rewrite Ev in Ev'.
  assert (C2 : over_escapes (a ++ T "\\/" ++ v ++ T "\\/" ++ b) = 2).
  { rewrite (over_escapes_broken a _ Ea), (over_escapes_broken v _ Ev). lia. }
  assert (C1 : over_escapes (rule1 a ++ T "\\/" ++ rule1 v ++ T "\/" ++ rule1 b)
               = 1).
  { rewrite (over_escapes_broken _ _ Ea'), (over_escapes_repaired _ _ Ev'). lia. }
  assert (C0 : over_escapes (rule1 a ++ T "\/" ++ rule1 v ++ T "\/" ++ rule1 b)
               = 0).
  { rewrite (over_escapes_repaired _ _ Ea'), (over_escapes_repaired _ _ Ev'). lia. }
  assert (Hctx : forall n : Z,
             apply_replacements
               (before ++ (a ++ T "\\/" ++ v ++ T "\\/" ++ b) ++ after) n
             = apply_replacements before n
                 ++ apply_replacements (a ++ T "\\/" ++ v ++ T "\\/" ++ b) n
                 ++ apply_replacements after n).
  { intros n.
    apply (linewise_in_context (fun t => apply_replacements t n)
                               (apply_replacements_nil n)
                               (fun p q => apply_replacements_lines p q n)
                               _ _ _ Hbefore Hafter). }
  split; [exact C2|]. split.
  - rewrite Hctx, (apply_replacements_iter (a ++ _)).
    change (Nat.iter (Z.to_nat 1) one_pass ?x) with (one_pass x).
    rewrite P1. split; [reflexivity|exact C1].
  - intros n Hn. rewrite Hctx, (apply_replacements_iter (a ++ _)).
    replace (Z.to_nat n) with (S (S (Z.to_nat (n - 2)))) by lia.
    rewrite !Nat.iter_succ_r, P1, P2.
    rewrite (iter_fixed one_pass _ P3). split; [reflexivity|exact C0].
Qed.

Lemma two_defects_need_two_iterations_witness :
  apply_replacements
    (T "'use strict';" ++ [NL]
       ++ (T "var r = /a" ++ T "\\/" ++ T "b" ++ T "\\/" ++ T "c/;") ++ []) 1
  = apply_replacements (T "'use strict';" ++ [NL]) 1
      ++ (rule1 (T "var r = /a") ++ T "\\/" ++ rule1 (T "b") ++ T "\/"
            ++ rule1 (T "c/;"))
      ++ apply_replacements [] 1 /\
  apply_replacements
    (T "'use strict';" ++ [NL]
       ++ (T "var r = /a" ++ T "\\/" ++ T "b" ++ T "\\/" ++ T "c/;") ++ []) 7
  = apply_replacements (T "'use strict';" ++ [NL]) 7
      ++ (rule1 (T "var r = /a") ++ T "\/" ++ rule1 (T "b") ++ T "\/"
            ++ rule1 (T "c/;"))
      ++ apply_replacements [] 7.
Proof.
  destruct (two_defects_need_two_iterations
              (T "'use strict';" ++ [NL]) []
              (T "var r = /a") (T "b") (T "c/;"))
    as (_ & [H1 _] & H2); try reflexivity.
  split; [exact H1|]. apply H2. lia.
Defined.

(** C4.  Once a pass leaves the text as it found it, every later pass
    does too: if [k] and [k + 1] iterations give the same text, so do
    [k] and any larger number of iterations. *)
Theorem fixed_point_is_stable :
  forall (data : text) (k : Z),
    (0 <= k)%Z ->
    apply_replacements data (k + 1) = apply_replacements data k ->
    forall k' : Z,
      (k < k')%Z ->
      apply_replacements data k' = apply_replacements data k.
Proof.
  intros data k Hk Hfix k' Hk'.
  rewrite apply_replacements_succ in Hfix by assumption.
  rewrite (apply_replacements_iter data k').
  replace (Z.to_nat k') with (Z.to_nat (k' - k) + Z.to_nat k) by lia.
  rewrite Nat.iter_add, <- (apply_replacements_iter data k).
  now apply iter_fixed.
Qed.

Lemma fixed_point_is_stable_witness :
  apply_replacements (T "var r = /a\\/b/;") 9
  = apply_replacements (T "var r = /a\\/b/;") 1.
Proof.
  apply (fixed_point_is_stable (T "var r = /a\\/b/;") 1);
    [lia | vm_compute; reflexivity | lia].
Defined.

(** C5.  Rule 1 turns an occurrence of a dot, two at-signs and a
    maximal run of identifier characters into bracket access with the
    name between backticks, and goes on in the same way on both sides
    of the occurrence.  One iteration turns [obj.@@iterator] into
    [obj[`@@iterator`]]. *)
Theorem rule1_rewrites_dotted_special :
  (forall pre w rest : text,
      w <> [] ->
      forallb (in_set word_set) w = true ->
      word_boundary rest = true ->
      rule1 (pre ++ T ".@@" ++ w ++ rest)
      = rule1 pre ++ T "[`" ++ T "@@" ++ w ++ T "`]" ++ rule1 rest) /\
  apply_replacements (T "obj.@@iterator") 1 = T "obj[`@@iterator`]".
Proof.
  split.
  - intros pre w rest. apply rule1_occurrence.
  - vm_compute. reflexivity.
Qed.

Lemma rule1_rewrites_dotted_special_witness :
  rule1 (T "a" ++ T ".@@" ++ T "x1" ++ T ".@@y")
  = rule1 (T "a") ++ T "[`" ++ T "@@" ++ T "x1" ++ T "`]" ++ rule1 (T ".@@y").
Proof.
  apply (proj1 rule1_rewrites_dotted_special (T "a") (T "x1") (T ".@@y"));
    [discriminate | reflexivity | reflexivity].
Defined.



(** C7.  With an iteration count of zero the text comes back as it
    went in, whatever it holds. *)
Theorem zero_iterations_identity :
  forall data : text, apply_replacements data 0 = data.
Proof. intros data. reflexivity. Qed.

(** C8.  A text with neither defect (no dotted special identifier, no
    over-escaped slash behind an assignment on its line) comes back
    unchanged for every iteration count; so does the empty text. *)
Theorem clean_text_unchanged :
  (forall (data : text) (n : Z),
      has_dotted_special data = false ->
      has_regex_defect data = false ->
      apply_replacements data n = data) /\
  (forall n : Z, apply_replacements [] n = []).
Proof.
  split.
  - intros data n H1 H2. rewrite apply_replacements_iter.
    apply iter_fixed. now apply one_pass_clean.
  - intros n. rewrite apply_replacements_iter.
    apply iter_fixed. now apply one_pass_clean.
Qed.

Lemma clean_text_unchanged_witness :
  apply_replacements (T "var q = a / b; s = '\\/'; t = /x\/y/;") 100
  = T "var q = a / b; s = '\\/'; t = /x\/y/;".
Proof.
  apply (proj1 clean_text_unchanged
               (T "var q = a / b; s = '\\/'; t = /x\/y/;") 100%Z);
    reflexivity.
Defined.




(** C10.  Every pass keeps the line structure.  For every text and
    every iteration count the result has exactly as many newline
    characters as the input; the rewriter works on the text in front of
    a newline and on the text behind it independently; and a match of
    either pattern holds no newline, nor does what replaces it. *)
Theorem newlines_preserved :
  (forall (data : text) (n : Z),
      newlines (apply_replacements data n) = newlines data) /\
  (forall (p q : text) (n : Z),
      apply_replacements (p ++ NL :: q) n
      = apply_replacements p n ++ NL :: apply_replacements q n) /\
  (forall (regex : regex) (replace_with : template) (s : text)
          (caps : captures) (rest : text),
      In (regex, replace_with) replacements ->
      re_match regex s = Some (caps, rest) ->
      exists w : text,
        s = w ++ rest /\ newlines w = 0 /\
        newlines (expand replace_with caps) = 0).
Proof.
  split; [|split].
  - intros data n. rewrite apply_replacements_iter.
    induction (Z.to_nat n) as [|m IH]; [reflexivity|].
    change (Nat.iter (S m) one_pass data)
      with (one_pass (Nat.iter m one_pass data)).
    now rewrite one_pass_newlines.
  - intros p q n. apply apply_replacements_lines.
  - intros regex replace_with s caps rest Hin Hm.
    assert (Hfree : regex_newline_free regex = true /\
                    template_newline_free replace_with = true).
    { destruct Hin as [[= <- <-]|[[= <- <-]|[]]]; split; reflexivity. }
    destruct Hfree as [Hr Ht].
    destruct (re_match_newline_free _ _ _ _ Hr Hm) as (w & Hs & Hw & Hc).
    exists w. repeat split.
    + exact Hs.
    + now apply newline_free_newlines.
    + apply newline_free_newlines. now apply expand_newline_free.
Qed.

Lemma newlines_preserved_witness :
  exists w : text,
    T "= /a\\/b/;" ++ [NL] ++ T "y = /c\\/d/;" = w ++ T ";" ++ [NL] ++ T "y = /c\\/d/;" /\
    newlines w = 0 /\
    newlines (expand regex_escape_repl
                     [(3, T "b/"); (2, T "\\/"); (1, T "= /a")]) = 0.
Proof.
  apply (proj2 (proj2 newlines_preserved) regex_escape_re regex_escape_repl
               (T "= /a\\/b/;" ++ [NL] ++ T "y = /c\\/d/;")).
  - right. left. reflexivity.
  - vm_compute. reflexivity.
Defined.

(* ------------------------------------------------------------------ *)
(** ** More about the two rules *)

(** *** Where rule 2 matches *)

Lemma last_slash_line (b : text) :
  line_has_slash b = true ->
  exists c d, b = c ++ SLASH :: d /\ newline_free c = true /\
              line_has_slash d = false.
Proof.
  induction b as [|a b IH]; [discriminate|].
  cbn [line_has_slash]. destruct (Ascii.eqb a NL) eqn:Ha; [discriminate|].
  destruct (line_has_slash b) eqn:Hb.
  - intros _. destruct (IH eq_refl) as (c & d & -> & Hc & Hd).
    exists (a :: c), d. cbn [newline_free forallb app]. rewrite Ha.
    repeat split; assumption.
  - rewrite orb_false_r. intros Hs. apply Ascii.eqb_eq in Hs. subst a.
    exists [], b. auto.
Qed.

(** The last over-escaped sequence of a line that has a slash behind
    it. *)
Lemma last_over_escape (s : text) :
  line_has_over_escape s = true ->
  exists u b, s = u ++ T "\\/" ++ b /\ newline_free u = true /\
              line_has_slash b = true /\ line_has_over_escape b = false.
Proof.
  induction s as [|c t IH]; [discriminate|].
  cbn [line_has_over_escape]. destruct (Ascii.eqb c NL) eqn:Hc; [discriminate|].
  destruct (line_has_over_escape t) eqn:Ht.
  - intros _. destruct (IH eq_refl) as (u & b & -> & Hu & Hs & Hb).
    exists (c :: u), b. cbn [newline_free forallb app]. rewrite Hc.
    repeat split; assumption.
  - rewrite orb_false_r, over_escape_here_strip.
    destruct (strip_prefix (T "\\/") (c :: t)) as [b|] eqn:E; [|discriminate].
    apply strip_prefix_some in E. intros Hs.
    exists [], b. repeat split; try assumption.
    injection E as -> ->.
    now apply (line_has_over_escape_suffix [BS; SLASH] b).
Qed.

Lemma regex_defect_here_split (s : text) :
  regex_defect_here s = true ->
  exists u c d,
    s = T "= /" ++ u ++ T "\\/" ++ c ++ SLASH :: d /\
    newline_free u = true /\ newline_free c = true /\
    line_has_over_escape (c ++ SLASH :: d) = false /\
    line_has_slash d = false.
Proof.
  unfold regex_defect_here, starts_with.
  destruct (strip_prefix (T "= /") s) as [s0|] eqn:E; [|discriminate].
  apply strip_prefix_some in E. subst s. cbn [andb skipn T list_ascii_of_string app].
  intros H. destruct (last_over_escape _ H) as (u & b & -> & Hu & Hs & Hb).
  destruct (last_slash_line b Hs) as (c & d & -> & Hc & Hd).
  exists u, c, d. repeat split; assumption.
Qed.

(** The pattern of rule 2 matches exactly where the second defect
    starts. *)
Lemma re_match_escape_iff (s : text) :
  regex_defect_here s = true <-> re_match regex_escape_re s <> None.
Proof.
  split.
  - intros H. destruct (regex_defect_here_split s H)
      as (u & c & d & -> & Hu & Hc & Hesc & Hd).
    now rewrite (re_match_escape_some u c d Hu Hc Hesc Hd).
  - intros H. destruct (regex_defect_here s) eqn:E; [reflexivity|].
    now rewrite (re_match_escape_none s E) in H.
Qed.

Lemma has_regex_defect_split (l : text) :
  newline_free l = true ->
  has_regex_defect l = true ->
  exists a b,
    l = a ++ T "\\/" ++ b /\ has_assign a = true /\
    line_has_slash b = true /\ line_has_over_escape b = false.
Proof.
  induction l as [|c l IH]; [discriminate|].
  intros Hnl. cbn [has_regex_defect].
  destruct (regex_defect_here (c :: l)) eqn:Hhere.
  - intros _. destruct (regex_defect_here_split _ Hhere)
      as (u & c0 & d & Hs & Hu & Hc & Hesc & Hd).
    exists (T "= /" ++ u), (c0 ++ SLASH :: d).
    split; [now rewrite Hs, <- !app_assoc|].
    split; [apply (has_assign_app [] u)|].
    split; [|assumption].
    now apply line_has_slash_prefix.
  - cbn [orb]. intros H. cbn [newline_free forallb] in Hnl.
    apply andb_prop in Hnl as [_ Hnl].
    destruct (IH Hnl H) as (a & b & -> & Ha & Hs & Hb).
    exists (c :: a), b. repeat split; try assumption.
    cbn [has_assign]. rewrite Ha. apply orb_true_r.
Qed.

(** *** One line at a time *)

Lemma lines_ind (P : text -> Prop) :
  (forall l, newline_free l = true -> P l) ->
  (forall l q, newline_free l = true -> P q -> P (l ++ NL :: q)) ->
  forall t, P t.
Proof.
  intros Hone Hmore t.
  assert (G : forall l, newline_free l = true -> P (l ++ t)).
  { induction t as [|c t IH]; intros l Hl.
    - rewrite app_nil_r. now apply Hone.
    - destruct (Ascii.eqb_spec c NL) as [->|Hc].
      + apply Hmore; [assumption|]. apply (IH [] eq_refl).
      + change (l ++ c :: t) with (l ++ [c] ++ t). rewrite app_assoc.
        apply IH. rewrite newline_free_app, Hl. cbn [andb].
        unfold newline_free. cbn [forallb].
        apply Ascii.eqb_neq in Hc. now rewrite Hc. }
  apply (G [] eq_refl).
Qed.

(** Rule 2 on one line: nothing, or one backslash less. *)
Lemma rule2_on_line (l : text) :
  newline_free l = true ->
  (has_regex_defect l = false /\ rule2 l = l) \/
  (has_regex_defect l = true /\
   exists a b, l = a ++ T "\\/" ++ b /\ rule2 l = a ++ T "\/" ++ b).
Proof.
  intros Hnl. destruct (has_regex_defect l) eqn:Hd.
  - right. split; [reflexivity|].
    destruct (has_regex_defect_split l Hnl Hd) as (a & b & -> & Ha & Hs & Hb).
    exists a, b. split; [reflexivity|].
    rewrite !newline_free_app in Hnl.
    apply andb_prop in Hnl as [Hna Hnl]. apply andb_prop in Hnl as [_ Hnb].
    now apply rule2_line.
  - left. split; [reflexivity|]. now apply rule2_clean.
Qed.

(** *** Rule 1 and the second defect *)

Lemma regex_defect_here_strip (s : text) :
  regex_defect_here s
  = match strip_prefix (T "= /") s with
    | Some r => line_has_over_escape r
    | None => false
    end.
Proof.
  unfold regex_defect_here, starts_with.
  destruct (strip_prefix (T "= /") s) as [r|] eqn:E; [|reflexivity].
  apply strip_prefix_some in E. now subst s.
Qed.

Lemma skip_word_defect (w y : text) :
  forallb (in_set word_set) w = true ->
  has_regex_defect (w ++ y) = has_regex_defect y.
Proof.
  induction w as [|c w IH]; [reflexivity|].
  cbn [forallb app has_regex_defect]. intros H. apply andb_prop in H as [Hc Hw].
  destruct (word_char_facts c Hc) as (_ & _ & _ & He & _).
  rewrite regex_defect_here_strip. cbn [T list_ascii_of_string strip_prefix].
  rewrite He. now apply IH.
Qed.

Lemma rule1_graph_defect (t t' : text) :
  rule1_graph t t' -> has_regex_defect t' = has_regex_defect t.
Proof.
  induction 1 as [|c t t' Hhere H IH|w rest rest' Hne Hw Hb H IH].
  - reflexivity.
  - cbn [has_regex_defect]. rewrite IH, !regex_defect_here_strip. f_equal.
    pose proof (rule1_graph_strip (T "= /") eq_refl (c :: t) (c :: t')
                                  (rule1_copy c t t' Hhere H)) as HS.
    destruct (strip_prefix (T "= /") (c :: t)) as [r|],
             (strip_prefix (T "= /") (c :: t')) as [r'|]; try tauto.
    now apply rule1_graph_over_escape.
  - change (has_regex_defect (T ".@@" ++ w ++ rest))
      with (has_regex_defect (w ++ rest)).
    change (has_regex_defect (T "[`" ++ T "@@" ++ w ++ T "`]" ++ rest'))
      with (has_regex_defect (w ++ T "`]" ++ rest')).
    rewrite (skip_word_defect w (T "`]" ++ rest') Hw), (skip_word_defect w rest Hw).
    exact IH.
Qed.

Lemma skip_word_backslashes (w y : text) :
  forallb (in_set word_set) w = true ->
  backslashes (w ++ y) = backslashes y.
Proof.
  unfold backslashes. induction w as [|c w IH]; [reflexivity|].
  cbn [forallb app count_occ]. intros H. apply andb_prop in H as [Hc Hw].
  destruct (word_char_facts c Hc) as (_ & _ & He & _).
  destruct (ascii_dec c BS) as [->|_]; [now rewrite Ascii.eqb_refl in He|].
  now apply IH.
Qed.

Lemma rule1_graph_backslashes (t t' : text) :
  rule1_graph t t' -> backslashes t' = backslashes t.
Proof.
  induction 1 as [|c t t' Hhere H IH|w rest rest' Hne Hw Hb H IH].
  - reflexivity.
  - unfold backslashes in *. cbn [count_occ]. rewrite IH. reflexivity.
  - change (backslashes (T ".@@" ++ w ++ rest)) with (backslashes (w ++ rest)).
    change (backslashes (T "[`" ++ T "@@" ++ w ++ T "`]" ++ rest'))
      with (backslashes (w ++ T "`]" ++ rest')).
    rewrite (skip_word_backslashes w (T "`]" ++ rest') Hw),
      (skip_word_backslashes w rest Hw).
    exact IH.
Qed.

Lemma rule1_graph_payload (t t' : text) :
  rule1_graph t t' -> payload t' = payload t.
Proof.
  induction 1 as [|c t t' Hhere H IH|w rest rest' Hne Hw Hb H IH].
  - reflexivity.
  - unfold payload in *. cbn [filter]. rewrite IH. reflexivity.
  - unfold payload in *. rewrite !filter_app, IH. reflexivity.
Qed.

(** *** The two rules commute *)

Lemma rule1_rule2_line (l : text) :
  newline_free l = true -> rule2 (rule1 l) = rule1 (rule2 l).
Proof.
  intros Hnl. destruct (has_regex_defect l) eqn:Hd.
  - destruct (has_regex_defect_split l Hnl Hd) as (a & b & -> & Ha & Hs & Hb).
    rewrite !newline_free_app in Hnl.
    apply andb_prop in Hnl as [Hna Hnl]. apply andb_prop in Hnl as [_ Hnb].
    rewrite (rule2_line a b Hna Ha Hnb Hs Hb), rule1_repaired.
    exact (one_pass_line a b Hna Ha Hnb Hs Hb).
  - rewrite (rule2_clean l Hd). apply rule2_clean.
    now rewrite (rule1_graph_defect _ _ (rule1_graph_of l)).
Qed.

Lemma rule1_rule2_commute (t : text) : rule2 (rule1 t) = rule1 (rule2 t).
Proof.
  induction t as [l Hl|l q Hl IH] using lines_ind.
  - now apply rule1_rule2_line.
  - now rewrite rule1_lines, !rule2_lines, rule1_lines, IH, rule1_rule2_line.
Qed.

Lemma rule1_iter_rule2 (k : nat) (t : text) :
  rule1 (Nat.iter k rule2 t) = Nat.iter k rule2 (rule1 t).
Proof.
  induction k as [|k IH]; [reflexivity|].
  change (Nat.iter (S k) rule2 ?x) with (rule2 (Nat.iter k rule2 x)).
  now rewrite <- rule1_rule2_commute, IH.
Qed.

(** From the first pass on, only rule 2 is at work. *)
Lemma iter_one_pass (k : nat) (t : text) :
  Nat.iter (S k) one_pass t = Nat.iter (S k) rule2 (rule1 t).
Proof.
  induction k as [|k IH]; [reflexivity|].
  change (Nat.iter (S (S k)) one_pass t)
    with (one_pass (Nat.iter (S k) one_pass t)).
  rewrite IH. unfold one_pass. rewrite rule1_iter_rule2, rule1_idempotent.
  reflexivity.
Qed.

(** *** What rule 2 takes away *)

Lemma backslashes_app (a b : text) :
  backslashes (a ++ b) = backslashes a + backslashes b.
Proof. apply count_occ_app. Qed.

Lemma payload_app (a b : text) : payload (a ++ b) = payload a ++ payload b.
Proof. apply filter_app. Qed.

(** Rule 2 changes a text by deleting backslashes and in no other
    way. *)
Lemma rule2_effect (t : text) :
  (forall c : ascii, c <> BS ->
                     count_occ ascii_dec (rule2 t) c = count_occ ascii_dec t c) /\
  payload (rule2 t) = payload t /\
  length (rule2 t) + backslashes t = length t + backslashes (rule2 t) /\
  backslashes (rule2 t) <= backslashes t /\
  (rule2 t = t \/ backslashes (rule2 t) < backslashes t).
Proof.
  induction t as [l Hl|l q Hl IH] using lines_ind.
  - destruct (rule2_on_line l Hl) as [[_ ->]|[_ (a & b & -> & ->)]].
    + repeat split; auto.
    + rewrite !backslashes_app, !payload_app, !length_app.
      change (backslashes (T "\\/")) with 2. change (backslashes (T "\/")) with 1.
      change (length (T "\\/")) with 3. change (length (T "\/")) with 2.
      repeat split; try lia.
      intros c Hc. rewrite !count_occ_app. f_equal. f_equal.
      cbn [T list_ascii_of_string count_occ].
      change "\"%char with BS.
      destruct (ascii_dec BS c) as [E|_]; [congruence|reflexivity].
  - destruct IH as (Hcount & Hpay & Hlen & Hle & Hdec).
    destruct (rule2_on_line l Hl) as [[_ El]|[_ (a & b & -> & El)]];
      rewrite rule2_lines, El.
    + change (l ++ NL :: rule2 q) with (l ++ [NL] ++ rule2 q).
      change (l ++ NL :: q) with (l ++ [NL] ++ q).
      rewrite !backslashes_app, !payload_app, !length_app, Hpay.
      repeat split; try lia.
      * intros c Hc. now rewrite !count_occ_app, (Hcount c Hc).
      * destruct Hdec as [->|Hlt]; [now left|right; lia].
    + change ((a ++ T "\/" ++ b) ++ NL :: rule2 q)
        with ((a ++ T "\/" ++ b) ++ [NL] ++ rule2 q).
      change ((a ++ T "\\/" ++ b) ++ NL :: q)
        with ((a ++ T "\\/" ++ b) ++ [NL] ++ q).
      rewrite !backslashes_app, !payload_app, !length_app, Hpay.
      change (backslashes (T "\\/")) with 2. change (backslashes (T "\/")) with 1.
      change (length (T "\\/")) with 3. change (length (T "\/")) with 2.
      repeat split; try lia.
      intros c Hc. rewrite !count_occ_app, (Hcount c Hc). f_equal. f_equal.
      cbn [T list_ascii_of_string count_occ].
      change "\"%char with BS.
      destruct (ascii_dec BS c) as [E|_]; [congruence|reflexivity].
Qed.

Lemma rule2_length (t : text) : length (rule2 t) <= length t.
Proof. destruct (rule2_effect t) as (_ & _ & Hlen & Hle & _). lia. Qed.

(** Rule 2 leaves a text alone only when the text lacks the second
    defect. *)
Lemma rule2_fixed_clean (t : text) :
  rule2 t = t -> has_regex_defect t = false.
Proof.
  induction t as [|c t IH]; [reflexivity|].
  intros Hfix. cbn [has_regex_defect].
  destruct (regex_defect_here (c :: t)) eqn:Hhere.
  - exfalso.
    destruct (regex_defect_here_split _ Hhere)
      as (u & c0 & d & Hs & Hu & Hc & Hesc & Hd).
    pose proof (rule2_repair c0 d Hc Hesc Hd (T "= /" ++ u)) as R.
    rewrite <- app_assoc, <- Hs in R.
    rewrite R in Hfix.
    + apply (f_equal (@length ascii)) in Hfix. rewrite Hs in Hfix.
      rewrite !length_app in Hfix. cbn [length T list_ascii_of_string] in Hfix.
      rewrite ?length_app in Hfix. cbn [length] in Hfix.
      pose proof (rule2_length d). lia.
    + rewrite newline_free_app. now rewrite Hu.
    + apply (has_assign_app [] u).
  - cbn [orb]. apply IH.
    unfold rule2 in *. rewrite re_sub_cons, (re_match_escape_none _ Hhere) in Hfix.
    now injection Hfix.
Qed.

Lemma rule2_iter_backslashes (k : nat) (t : text) :
  backslashes (Nat.iter k rule2 t) <= backslashes t.
Proof.
  induction k as [|k IH]; [reflexivity|].
  change (Nat.iter (S k) rule2 t) with (rule2 (Nat.iter k rule2 t)).
  destruct (rule2_effect (Nat.iter k rule2 t)) as (_ & _ & _ & Hle & _). lia.
Qed.

(** *** What rule 1 adds *)

Lemma rule1_graph_brackets (t t' : text) :
  rule1_graph t t' ->
  count_occ ascii_dec t "["%char <= count_occ ascii_dec t' "["%char /\
  (has_dotted_special t = true ->
   count_occ ascii_dec t "["%char < count_occ ascii_dec t' "["%char).
Proof.
  induction 1 as [|c t t' Hhere H [IH1 IH2]|w rest rest' Hne Hw Hb H [IH1 IH2]].
  - split; [reflexivity|discriminate].
  - cbn [count_occ has_dotted_special]. rewrite Hhere. cbn [orb].
    destruct (ascii_dec c "[");
      (split; [lia|intros Hd; specialize (IH2 Hd); lia]).
  - rewrite !count_occ_app. cbn [T list_ascii_of_string count_occ].
    repeat match goal with
           | |- context [ascii_dec ?x ?y] =>
               destruct (ascii_dec x y) as [E|E];
               try discriminate E; try congruence; clear E
           end.
    split; [lia|intros _; lia].
Qed.

(** *** Reaching a fixed point *)

Lemma iter_reaches_fixed (f : text -> text) (m : text -> nat) :
  (forall x, f x = x \/ m (f x) < m x) ->
  forall (k : nat) (x : text),
    m x <= k -> f (Nat.iter k f x) = Nat.iter k f x.
Proof.
  intros Hf. induction k as [|k IH]; intros x Hm.
  - destruct (Hf x) as [E|Hlt]; [exact E|lia].
  - destruct (Hf x) as [E|Hlt].
    + now rewrite (iter_fixed f x E).
    + rewrite Nat.iter_succ_r. apply IH. lia.
Qed.

Lemma line_backslashes_line (l q : text) :
  newline_free l = true ->
  line_backslashes l = backslashes l /\
  line_backslashes (l ++ NL :: q) = backslashes l.
Proof.
  unfold backslashes. induction l as [|c l IH]; [now split|].
  cbn [newline_free forallb]. intros H. apply andb_prop in H as [Hc Hl].
  apply negb_true_iff in Hc. destruct (IH Hl) as [IH1 IH2].
  cbn [app line_backslashes count_occ]. rewrite Hc, IH1, IH2.
  destruct (Ascii.eqb_spec c BS) as [->|Hn].
  - destruct (ascii_dec BS BS); [now split|congruence].
  - destruct (ascii_dec c BS); [congruence|now split].
Qed.

Lemma max_line_backslashes_line (l : text) :
  newline_free l = true -> max_line_backslashes l = backslashes l.
Proof.
  induction l as [|c l IH]; [reflexivity|].
  intros Hnl. cbn [max_line_backslashes].
  rewrite (proj1 (line_backslashes_line (c :: l) [] Hnl)).
  cbn [newline_free forallb] in Hnl. apply andb_prop in Hnl as [_ Hl].
  rewrite (IH Hl). unfold backslashes. cbn [count_occ].
  destruct (ascii_dec c BS); lia.
Qed.

Lemma max_line_backslashes_lines (l q : text) :
  newline_free l = true ->
  max_line_backslashes (l ++ NL :: q)
  = Nat.max (backslashes l) (max_line_backslashes q).
Proof.
  induction l as [|c l IH]; intros Hnl.
  - cbn [app max_line_backslashes line_backslashes].
    now rewrite Ascii.eqb_refl.
  - cbn [app max_line_backslashes].
    change (c :: l ++ NL :: q) with ((c :: l) ++ NL :: q).
    rewrite (proj2 (line_backslashes_line (c :: l) q Hnl)).
    cbn [newline_free forallb] in Hnl. apply andb_prop in Hnl as [_ Hl].
    rewrite (IH Hl). unfold backslashes. cbn [count_occ].
    destruct (ascii_dec c BS); lia.
Qed.

Lemma one_pass_iter_lines (n : nat) (p q : text) :
  Nat.iter n one_pass (p ++ NL :: q)
  = Nat.iter n one_pass p ++ NL :: Nat.iter n one_pass q.
Proof.
  induction n as [|n IH]; [reflexivity|].
  change (Nat.iter (S n) one_pass ?x) with (one_pass (Nat.iter n one_pass x)).
  now rewrite IH, one_pass_lines.
Qed.

Lemma one_pass_settles_line (l : text) (n : nat) :
  Nat.max 1 (backslashes l) <= n ->
  one_pass (Nat.iter n one_pass l) = Nat.iter n one_pass l.
Proof.
  intros Hn. destruct n as [|n]; [lia|].
  rewrite iter_one_pass. unfold one_pass.
  rewrite rule1_iter_rule2, rule1_idempotent.
  apply (iter_reaches_fixed rule2 backslashes).
  - intros x. apply rule2_effect.
  - rewrite (rule1_graph_backslashes _ _ (rule1_graph_of l)). lia.
Qed.

(** After as many passes as there are backslashes on the fullest line,
    and at least one, nothing changes any more. *)
Lemma one_pass_settles (t : text) :
  forall n : nat,
    Nat.max 1 (max_line_backslashes t) <= n ->
    one_pass (Nat.iter n one_pass t) = Nat.iter n one_pass t.
Proof.
  induction t as [l Hl|l q Hl IH] using lines_ind; intros n Hn.
  - rewrite (max_line_backslashes_line l Hl) in Hn.
    now apply one_pass_settles_line.
  - rewrite (max_line_backslashes_lines l q Hl) in Hn.
    rewrite one_pass_iter_lines, one_pass_lines. f_equal; [|f_equal].
    + apply one_pass_settles_line. lia.
    + apply IH. lia.
Qed.

Lemma rule2_keeps_others (t : text) :
  filter (fun c => negb (Ascii.eqb c BS)) (rule2 t)
  = filter (fun c => negb (Ascii.eqb c BS)) t.
Proof.
  induction t as [l Hl|l q Hl IH] using lines_ind.
  - destruct (rule2_on_line l Hl) as [[_ ->]|[_ (a & b & -> & ->)]];
      [reflexivity|].
    now rewrite !filter_app.
  - rewrite rule2_lines.
    change (rule2 l ++ NL :: rule2 q) with (rule2 l ++ [NL] ++ rule2 q).
    change (l ++ NL :: q) with (l ++ [NL] ++ q).
    rewrite !filter_app, IH. f_equal.
    destruct (rule2_on_line l Hl) as [[_ ->]|[_ (a & b & -> & ->)]];
      [reflexivity|].
    now rewrite !filter_app.
Qed.

Lemma one_pass_payload (t : text) : payload (one_pass t) = payload t.
Proof.
  unfold one_pass.
  rewrite (proj1 (proj2 (rule2_effect (rule1 t)))).
  apply (rule1_graph_payload _ _ (rule1_graph_of t)).
Qed.

Lemma rule1_fixed_clean (t : text) :
  rule1 t = t -> has_dotted_special t = false.
Proof.
  intros Hfix. destruct (has_dotted_special t) eqn:Hd; [exfalso|reflexivity].
  destruct (rule1_graph_brackets _ _ (rule1_graph_of t)) as [_ Hlt].
  specialize (Hlt Hd). rewrite Hfix in Hlt. lia.
Qed.

(** A pass leaves a text alone exactly when the text has neither
    defect; so do any number of passes. *)
Lemma iter_one_pass_fixed_clean (k : nat) (t : text) :
  Nat.iter (S k) one_pass t = t ->
  has_dotted_special t = false /\ has_regex_defect t = false.
Proof.
  rewrite iter_one_pass. intros Hfix.
  assert (Hd : has_dotted_special t = false).
  { destruct (has_dotted_special t) eqn:Hd; [exfalso|reflexivity].
    destruct (rule1_graph_brackets _ _ (rule1_graph_of t)) as [_ Hlt].
    specialize (Hlt Hd).
    assert (Hcount : forall (j : nat) (x : text),
               count_occ ascii_dec (Nat.iter j rule2 x) "["%char
               = count_occ ascii_dec x "["%char).
    { induction j as [|j IH]; intros x; [reflexivity|].
      change (Nat.iter (S j) rule2 x) with (rule2 (Nat.iter j rule2 x)).
      rewrite (proj1 (rule2_effect _) "["%char) by discriminate. apply IH. }
    rewrite <- (Hcount (S k) (rule1 t)), Hfix in Hlt. lia. }
  split; [exact Hd|].
  rewrite (rule1_clean t Hd) in Hfix.
  apply rule2_fixed_clean.
  destruct (proj2 (proj2 (proj2 (proj2 (rule2_effect t))))) as [E|Hlt];
    [exact E|exfalso].
  rewrite Nat.iter_succ_r in Hfix.
  pose proof (rule2_iter_backslashes k (rule2 t)) as Hle.
  rewrite Hfix in Hle. lia.
Qed.

(* ------------------------------------------------------------------ *)
(** ** Further properties of the script *)

(** X1.  One application of rule 2 changes a line in at most one place:
    a line without the second defect is left as it is, and a line with
    it loses exactly one backslash, the first of one over-escaped
    sequence.  This holds for the line wherever it stands in the
    text. *)
Theorem rule2_one_backslash_per_line :
  forall before after l : text,
    at_line_start before = true ->
    at_line_end after = true ->
    newline_free l = true ->
    (has_regex_defect l = false /\
     rule2 (before ++ l ++ after) = rule2 before ++ l ++ rule2 after) \/
    (has_regex_defect l = true /\
     exists a b : text,
       l = a ++ T "\\/" ++ b /\
       rule2 (before ++ l ++ after)
       = rule2 before ++ (a ++ T "\/" ++ b) ++ rule2 after).
Proof.
  intros before after l Hbefore Hafter Hl.
  rewrite (linewise_in_context rule2 rule2_nil rule2_lines _ _ _ Hbefore Hafter).
  destruct (rule2_on_line l Hl) as [[Hd ->]|[Hd (a & b & -> & ->)]].
  - left. now split.
  - right. split; [assumption|]. exists a, b. now split.
Qed.

Lemma rule2_one_backslash_per_line_witness :
  (has_regex_defect (T "x = /a\\/b\\/c\\/d/;") = false /\
   rule2 (T "// head" ++ [NL] ++ T "x = /a\\/b\\/c\\/d/;" ++ [])
   = rule2 (T "// head" ++ [NL]) ++ T "x = /a\\/b\\/c\\/d/;" ++ rule2 []) \/
  (has_regex_defect (T "x = /a\\/b\\/c\\/d/;") = true /\
   exists a b : text,
     T "x = /a\\/b\\/c\\/d/;" = a ++ T "\\/" ++ b /\
     rule2 (T "// head" ++ [NL] ++ T "x = /a\\/b\\/c\\/d/;" ++ [])
     = rule2 (T "// head" ++ [NL]) ++ (a ++ T "\/" ++ b) ++ rule2 []).
Proof.
  apply (rule2_one_backslash_per_line (T "// head" ++ [NL]) []
                                      (T "x = /a\\/b\\/c\\/d/;"));
    reflexivity.
Defined.

(** X2.  Rule 2 only ever deletes backslashes: the characters other
    than backslashes come out as they went in, in the same order; the
    text never grows, and it shrinks by exactly the number of
    backslashes it loses. *)
Theorem rule2_only_deletes_backslashes :
  forall t : text,
    filter (fun c => negb (Ascii.eqb c BS)) (rule2 t)
    = filter (fun c => negb (Ascii.eqb c BS)) t /\
    backslashes (rule2 t) <= backslashes t /\
    length (rule2 t) + backslashes t = length t + backslashes (rule2 t).
Proof.
  intros t. destruct (rule2_effect t) as (_ & _ & Hlen & Hle & _).
  split; [apply rule2_keeps_others|]. split; assumption.
Qed.

(** X3.  Rule 1 finishes its work in one application: what it returns
    holds no dotted special identifier, a second application changes
    nothing, and it leaves a text as it is exactly when the text holds
    no dotted special identifier. *)
Theorem rule1_done_in_one_application :
  forall t : text,
    has_dotted_special (rule1 t) = false /\
    rule1 (rule1 t) = rule1 t /\
    (rule1 t = t <-> has_dotted_special t = false).
Proof.
  intros t. split; [|split; [|split]].
  - exact (rule1_graph_clean _ _ (rule1_graph_of t)).
  - apply rule1_idempotent.
  - apply rule1_fixed_clean.
  - apply rule1_clean.
Qed.

Lemma rule1_done_in_one_application_witness :
  has_dotted_special (T "a.b.@@") = false.
Proof.
  apply (proj1 (proj2 (proj2 (rule1_done_in_one_application (T "a.b.@@"))))).
  vm_compute. reflexivity.
Defined.

(** X4.  The two rules do not disturb each other: rule 1 neither makes
    nor removes an over-escaped slash behind an assignment, and
    applying the rules in either order gives the same text. *)
Theorem rules_commute :
  forall t : text,
    rule2 (rule1 t) = rule1 (rule2 t) /\
    has_regex_defect (rule1 t) = has_regex_defect t /\
    over_escapes (rule1 t) = over_escapes t.
Proof.
  intros t. split; [apply rule1_rule2_commute|]. split.
  - exact (rule1_graph_defect _ _ (rule1_graph_of t)).
  - exact (rule1_graph_over_escapes _ _ (rule1_graph_of t)).
Qed.

(** X5.  From the first iteration on, only rule 2 is at work: [n + 1]
    iterations are one application of rule 1 followed by [n + 1]
    applications of rule 2. *)
Theorem iterations_normal_form :
  forall (data : text) (n : nat),
    apply_replacements data (Z.of_nat (S n))
    = Nat.iter (S n) rule2 (rule1 data).
Proof.
  intros data n. rewrite apply_replacements_iter, Nat2Z.id.
  apply iter_one_pass.
Qed.

(** X6.  The loop always settles.  Let [k] be the largest number of
    backslashes on one line of the text, or 1 if that is larger.  After
    [k] iterations the text is a fixed point of the pass: more
    iterations return the same text, and so does running the rewriter
    again on its result.  The default of 100 iterations reaches the
    fixed point of every text with at most 100 backslashes on each
    line. *)
Theorem rewriter_settles :
  (forall (data : text) (n : Z),
      (Z.of_nat (Nat.max 1 (max_line_backslashes data)) <= n)%Z ->
      rule2 (rule1 (apply_replacements data n)) = apply_replacements data n /\
      apply_replacements data n
      = apply_replacements data
                           (Z.of_nat (Nat.max 1 (max_line_backslashes data))) /\
      forall m : Z,
        apply_replacements (apply_replacements data n) m
        = apply_replacements data n) /\
  (forall data : text,
      max_line_backslashes data <= 100 ->
      rule2 (rule1 (apply_replacements data DEFAULT_ITERATIONS_COUNT))
      = apply_replacements data DEFAULT_ITERATIONS_COUNT).
Proof.
  assert (G : forall (data : text) (n : Z),
             (Z.of_nat (Nat.max 1 (max_line_backslashes data)) <= n)%Z ->
             rule2 (rule1 (apply_replacements data n))
             = apply_replacements data n).
  { intros data n Hn. rewrite apply_replacements_iter.
    apply (one_pass_settles data). lia. }
  split.
  - intros data n Hn. split; [exact (G data n Hn)|]. split.
    + set (k := Nat.max 1 (max_line_backslashes data)) in *.
      rewrite !apply_replacements_iter.
      replace (Z.to_nat n) with (Z.to_nat (n - Z.of_nat k) + Z.to_nat (Z.of_nat k))
        by lia.
      rewrite Nat.iter_add. apply iter_fixed.
      rewrite <- apply_replacements_iter. apply G. lia.
    + intros m. rewrite (apply_replacements_iter _ m).
      apply iter_fixed. exact (G data n Hn).
  - intros data Hd. apply G.
    unfold DEFAULT_ITERATIONS_COUNT. lia.
Qed.

Lemma rewriter_settles_witness :
  apply_replacements (T "x = /a\\/b\\/c\\/d/;") 9
  = apply_replacements
      (T "x = /a\\/b\\/c\\/d/;")
      (Z.of_nat (Nat.max 1 (max_line_backslashes (T "x = /a\\/b\\/c\\/d/;")))).
Proof.
  apply (proj1 rewriter_settles (T "x = /a\\/b\\/c\\/d/;") 9%Z).
  vm_compute. discriminate.
Defined.

(** X7.  With at least one iteration, the rewriter returns a text
    unchanged exactly when the text has neither defect. *)
Theorem unchanged_iff_clean :
  forall (data : text) (n : Z),
    (1 <= n)%Z ->
    (apply_replacements data n = data <->
     has_dotted_special data = false /\ has_regex_defect data = false).
Proof.
  intros data n Hn. rewrite apply_replacements_iter.
  replace (Z.to_nat n) with (S (Z.to_nat (n - 1))) by lia. split.
  - apply iter_one_pass_fixed_clean.
  - intros [H1 H2]. apply iter_fixed. now apply one_pass_clean.
Qed.

Lemma unchanged_iff_clean_witness :
  apply_replacements (T "a = b / c;") 3 = T "a = b / c;" <->
  has_dotted_special (T "a = b / c;") = false /\
  has_regex_defect (T "a = b / c;") = false.
Proof.
  apply (unchanged_iff_clean (T "a = b / c;") 3%Z). lia.
Defined.

(** X8.  The rewriter never adds, drops or reorders a character other
    than dots, square brackets, backticks and backslashes. *)
Theorem payload_preserved :
  forall (data : text) (n : Z),
    payload (apply_replacements data n) = payload data.
Proof.
  intros data n. rewrite apply_replacements_iter.
  induction (Z.to_nat n) as [|m IH]; [reflexivity|].
  change (Nat.iter (S m) one_pass data)
    with (one_pass (Nat.iter m one_pass data)).
  now rewrite one_pass_payload.
Qed.

(** X9.  Iterations add up: rewriting with [m] iterations and then
    rewriting the result with [n] iterations is rewriting once with
    [m + n] iterations. *)
Theorem iterations_compose :
  forall (data : text) (m n : Z),
    (0 <= m)%Z -> (0 <= n)%Z ->
    apply_replacements (apply_replacements data m) n
    = apply_replacements data (m + n).
Proof.
  intros data m n Hm Hn. rewrite !apply_replacements_iter.
  replace (Z.to_nat (m + n)) with (Z.to_nat n + Z.to_nat m) by lia.
  now rewrite Nat.iter_add.
Qed.

Lemma iterations_compose_witness :
  apply_replacements (apply_replacements (T "x = /a\\/b\\/c/;") 1) 1
  = apply_replacements (T "x = /a\\/b\\/c/;") (1 + 1).
Proof.
  apply (iterations_compose (T "x = /a\\/b\\/c/;") 1%Z 1%Z); lia.
Defined.

(** X10.  A negative iteration count is taken like zero: the text
    comes back as it went in. *)
Theorem nonpositive_iterations_identity :
  forall (data : text) (n : Z),
    (n <= 0)%Z -> apply_replacements data n = data.
Proof.
  intros data n Hn. rewrite apply_replacements_iter.
  replace (Z.to_nat n) with 0 by lia. reflexivity.
Qed.

Lemma nonpositive_iterations_identity_witness :
  apply_replacements (T "obj.@@iterator") (-3) = T "obj.@@iterator".
Proof.
  apply (nonpositive_iterations_identity (T "obj.@@iterator") (-3)%Z). lia.
Defined.

(** X11.  When the input can be read, the output path can be opened
    for writing and the write goes through, the run ends with status 0
    and the file the output path names holds exactly the rewritten
    input: the file it named before if there was one, a new file
    otherwise.  Every other file is as it was, and every path that
    named a file still names it; a path that names the output file, the
    input path included, shows the new text. *)
Theorem main_success_writes_result :
  forall (args : Namespace) (fs : filesystem) (data : text),
    well_formed fs = true ->
    read_text fs (file args) = Some data ->
    can_open_w fs (output_path args) = true ->
    write_limit fs (output_path args) = None ->
    fst (main args fs) = 0%Z /\
    exists id : file_id,
      lookup (names (snd (main args fs))) (output_path args) = Some id /\
      store (snd (main args fs)) id
      = apply_replacements data (iterations args) /\
      (forall id0 : file_id,
          lookup (names fs) (output_path args) = Some id0 -> id = id0) /\
      (forall id' : file_id,
          id' <> id -> store (snd (main args fs)) id' = store fs id') /\
      (forall (p : string) (id' : file_id),
          lookup (names fs) p = Some id' ->
          lookup (names (snd (main args fs))) p = Some id' /\
          (id' = id ->
           store (snd (main args fs)) id'
           = apply_replacements data (iterations args)) /\
          (lookup (names fs) (output_path args) <> Some id' ->
           store (snd (main args fs)) id' = store fs id')).
Proof.
  intros args fs data Hwf Hread Hopen Hlimit.
  destruct (main_cases args fs)
    as [[E _]|[(d & _ & E & _)|(d & f & fs1 & Hr & Ho & Hw)]];
    try congruence.
  destruct Hw as [[_ E]|(k & E & _)]; [|congruence].
  assert (d = data) by congruence. subst d.
  destruct (open_w_some _ _ _ _ Ho) as (_ & _ & Hname & _ & Hother & Hold & Hnew).
  destruct (store_set_text fs1 f (apply_replacements data (iterations args)))
    as [Hf Hrest].
  rewrite E. cbn [fst snd]. split; [reflexivity|].
  exists f. split; [exact Hname|]. split; [exact Hf|]. split.
  - intros id0 H0. now destruct (Hold id0 H0).
  - split.
    + intros id' Hid. rewrite (Hrest id' Hid). now apply Hother.
    + intros p id' Hp.
      assert (Hnames : lookup (names fs1) p = Some id').
      { destruct (lookup (names fs) (output_path args)) as [id0|] eqn:Eo.
        - destruct (Hold id0 eq_refl) as [_ ->]. exact Hp.
        - destruct (Hnew eq_refl) as [_ ->]. cbn [lookup].
          destruct (String.eqb_spec (output_path args) p) as [<-|_];
            [congruence|exact Hp]. }
      split; [exact Hnames|]. split.
      * intros ->. exact Hf.
      * intros Hne.
        assert (Hid : id' <> f).
        { destruct (lookup (names fs) (output_path args)) as [id0|] eqn:Eo.
          - destruct (Hold id0 eq_refl) as [-> _]. congruence.
          - destruct (Hnew eq_refl) as [-> _].
            pose proof (lookup_bound fs p id' Hwf Hp). lia. }
        rewrite (Hrest id' Hid). now apply Hother.
Qed.

Lemma main_success_writes_result_witness :
  fst (main (example_args (Some "link.js"%string)) (example_fs true None))
  = 0%Z /\
  exists id : file_id,
    lookup (names (snd (main (example_args (Some "link.js"%string))
                             (example_fs true None))))
           (output_path (example_args (Some "link.js"%string))) = Some id /\
    store (snd (main (example_args (Some "link.js"%string))
                     (example_fs true None))) id
    = apply_replacements (T "obj.@@iterator")
                         (iterations (example_args (Some "link.js"%string))).
Proof.
  destruct (main_success_writes_result
              (example_args (Some "link.js"%string)) (example_fs true None)
              (T "obj.@@iterator"))
    as (H0 & id & Hname & Hstore & _); try reflexivity.
  split; [exact H0|]. exists id. now split.
Defined.

(** X12.  With [-h] or [--help] on the command line the script ends
    with status 0 before it touches a file, whatever else is on the
    command line; when the parser ends the process, the script ends
    with the parser's status and touches no file.  Once the arguments
    are parsed the exit status is 0 or 1, and it is 0 exactly when the
    input can be read, the output path can be opened for writing and
    the write goes through. *)
Theorem main_exit_status :
  (forall (parse_args : list string -> parse_result) (argv : list string)
          (fs : filesystem),
      (help_requested argv = true -> script parse_args argv fs = (0%Z, fs)) /\
      (forall status : Z,
          help_requested argv = false ->
          parse_args argv = ParseExit status ->
          script parse_args argv fs = (status, fs)) /\
      (forall args : Namespace,
          help_requested argv = false ->
          parse_args argv = Parsed args ->
          script parse_args argv fs = main args fs)) /\
  (forall (args : Namespace) (fs : filesystem),
      (fst (main args fs) = 0%Z \/ fst (main args fs) = 1%Z) /\
      (fst (main args fs) = 0%Z <->
       read_text fs (file args) <> None /\
       can_open_w fs (output_path args) = true /\
       write_limit fs (output_path args) = None)).
Proof.
  split.
  - intros parse_args argv fs. unfold script. repeat split.
    + now intros ->.
    + now intros status -> ->.
    + now intros args -> ->.
  - intros args fs.
    destruct (main_cases args fs)
      as [[Hr E]|[(d & Hr & Ho & E)|(d & f & fs1 & Hr & Ho & Hw)]].
    + rewrite E. cbn [fst]. split; [now right|].
      split; [discriminate|]. intros (H & _). now contradiction H.
    + rewrite E. cbn [fst]. split; [now right|].
      split; [discriminate|]. intros (_ & H & _). congruence.
    + destruct (open_w_some _ _ _ _ Ho) as (Hcan & _).
      destruct Hw as [[Hl E]|(k & Hl & E)]; rewrite E; cbn [fst].
      * split; [now left|]. split; [|reflexivity].
        intros _. rewrite Hr. repeat split; try assumption. discriminate.
      * split; [now right|]. split; [discriminate|].
        intros (_ & _ & H). congruence.
Qed.

Lemma main_exit_status_witness :
  script (fun _ => ParseExit 2%Z) ["tool.py"; "missing.js"; "-h"]%string
         (example_fs false None)
  = (0%Z, example_fs false None).
Proof.
  apply (proj1 (proj1 main_exit_status (fun _ => ParseExit 2%Z)
                      ["tool.py"; "missing.js"; "-h"]%string
                      (example_fs false None))).
  reflexivity.
Defined.

(** X13.  Without an output option, or with an empty one, the output
    path is the input path with the suffix [.fixed.js], a different
    path.  Whatever the output path, a run leaves the text of the
    input file as it was unless the output path names that very file
    (the same path, or a link to it); the input path goes on naming
    the file. *)
Theorem default_output_keeps_input :
  (forall args : Namespace,
      out args = None \/ out args = Some EmptyString ->
      output_path args = String.append (file args) DEFAULT_APPEND_OUTPUT_EXT /\
      output_path args <> file args) /\
  (forall (args : Namespace) (fs : filesystem) (id : file_id),
      well_formed fs = true ->
      lookup (names fs) (file args) = Some id ->
      lookup (names fs) (output_path args) <> Some id ->
      store (snd (main args fs)) id = store fs id /\
      lookup (names (snd (main args fs))) (file args) = Some id).
Proof.
  split.
  - intros args Hout.
    assert (Hpath : output_path args
                    = String.append (file args) DEFAULT_APPEND_OUTPUT_EXT).
    { unfold output_path. now destruct Hout as [-> | ->]. }
    split; [exact Hpath|]. rewrite Hpath. apply append_ext_differs.
  - intros args fs id Hwf Hin Hout.
    destruct (main_cases args fs)
      as [[_ E]|[(d & _ & _ & E)|(d & f & fs1 & _ & Ho & Hw)]];
      try (rewrite E; now split).
    destruct (open_w_some _ _ _ _ Ho) as (_ & _ & _ & _ & Hother & Hold & Hnew).
    assert (Hid : id <> f).
    { destruct (lookup (names fs) (output_path args)) as [id0|] eqn:Eo.
      - destruct (Hold id0 eq_refl) as [-> _]. congruence.
      - destruct (Hnew eq_refl) as [-> _].
        pose proof (lookup_bound fs _ id Hwf Hin). lia. }
    assert (Hnames : lookup (names fs1) (file args) = Some id).
    { destruct (lookup (names fs) (output_path args)) as [id0|] eqn:Eo.
      - destruct (Hold id0 eq_refl) as [_ ->]. exact Hin.
      - destruct (Hnew eq_refl) as [_ ->]. cbn [lookup].
        destruct (String.eqb_spec (output_path args) (file args)) as [E|_];
          [congruence|exact Hin]. }
    destruct Hw as [[_ E]|(k & _ & E)]; rewrite E; cbn [snd]; split;
      try exact Hnames;
      rewrite (proj2 (store_set_text fs1 f _) id Hid); now apply Hother.
Qed.

Lemma default_output_keeps_input_witness :
  store (snd (main (example_args None) (example_fs true None))) 0
  = store (example_fs true None) 0 /\
  lookup (names (snd (main (example_args None) (example_fs true None))))
         (file (example_args None)) = Some 0.
Proof.
  apply (proj2 default_output_keeps_input (example_args None)
               (example_fs true None) 0);
    [reflexivity | reflexivity | vm_compute; discriminate].
Defined.
